(** * Geo Grid Places Search: a shallow embedding of [main.ts]

    The development follows the source file section by section: the
    number type of the language, the geocoding call, the grid generator,
    the nearby search, the CSV rendering, the orchestrator [run] and the
    command-line script around it.

    Modelling conventions.
    - A JavaScript [number] is one of [NaN], the two infinities, or a
      finite value. In [JsNumber] finite values are exact rationals and
      there is one zero: values are kept exactly, sums and quotients are
      not rounded. This is the number type of the orchestrator, of the
      test limit and of the records, where numbers are compared, cut and
      printed but not added.
    - The module [Binary64] has the loops of [generateGrid] in the
      arithmetic of the language itself (IEEE 754 binary64, rounding to
      nearest, ties to even). Everything that depends on the sums that the
      loops compute, the rows and columns of the grid and whether the loops
      end, is stated there.
    - Loops that the source writes as [for (...; cond; incr)] are
      functions on a fuel counter; [None] / [OutOfFuel] means that the
      loop was still running when the fuel ran out. A call for which no
      fuel gives a result does not return.
    - Strings are sequences of bytes; white space is the white space of
      ASCII.
    - Network, console, timer and file system are a trace of events that
      every effectful function appends to; the responses of the two web
      services are read from an environment record. *)

From Stdlib Require Import ZArith QArith Qround Lqa List String Ascii Bool Lia.
From Stdlib Require Import DecimalString.
From Stdlib Require Floats.SpecFloat.
Import ListNotations.

Set Implicit Arguments.

(* ------------------------------------------------------------------ *)
(** ** Numbers *)

Module JsNumber.

Inductive number : Type :=
| NaN
| PosInf
| NegInf
| Fin (q : Q).

(** [a + b] *)
Definition add (a b : number) : number :=
  match a, b with
  | NaN, _ | _, NaN => NaN
  | PosInf, NegInf | NegInf, PosInf => NaN
  | PosInf, _ | _, PosInf => PosInf
  | NegInf, _ | _, NegInf => NegInf
  | Fin x, Fin y => Fin (x + y)
  end.

(** [a <= b]; any comparison with [NaN] is false. *)
Definition leb (a b : number) : bool :=
  match a, b with
  | NaN, _ | _, NaN => false
  | NegInf, _ => true
  | _, PosInf => true
  | PosInf, _ => false
  | Fin _, NegInf => false
  | Fin x, Fin y => Qle_bool x y
  end.

(** [a > b] *)
Definition gtb (a b : number) : bool :=
  match a, b with
  | NaN, _ | _, NaN => false
  | _, PosInf => false
  | PosInf, _ => true
  | NegInf, _ => false
  | Fin _, NegInf => true
  | Fin x, Fin y => negb (Qle_bool x y)
  end.

Definition Qsign_pos (q : Q) : bool := negb (Qle_bool q 0).
Definition Qsign_neg (q : Q) : bool := negb (Qle_bool 0 q).

(** [a / b]; the single zero of the model counts as positive. *)
Definition div (a b : number) : number :=
  match a, b with
  | NaN, _ | _, NaN => NaN
  | (PosInf | NegInf), (PosInf | NegInf) => NaN
  | PosInf, Fin y => if Qsign_neg y then NegInf else PosInf
  | NegInf, Fin y => if Qsign_neg y then PosInf else NegInf
  | Fin _, (PosInf | NegInf) => Fin 0
  | Fin x, Fin y =>
      if Qeq_bool y 0 then
        if Qsign_pos x then PosInf
        else if Qsign_neg x then NegInf
        else NaN
      else Fin (x / y)
  end.

(** Truthiness of a number in a condition: [0] and [NaN] are falsy. *)
Definition truthy (a : number) : bool :=
  match a with
  | NaN => false
  | Fin q => negb (Qeq_bool q 0)
  | PosInf | NegInf => true
  end.

(** Rounding toward zero, as the array methods do with an index. *)
Definition Qtrunc (q : Q) : Z := Z.quot (Qnum q) (Zpos (Qden q)).

Definition of_Z (z : Z) : number := Fin (inject_Z z).
Definition of_nat (n : nat) : number := of_Z (Z.of_nat n).

End JsNumber.

Import JsNumber.

(* ------------------------------------------------------------------ *)
(** ** Types *)

Record LatLng : Type := mkLatLng { lat : number; lng : number }.

Record Bounds : Type := mkBounds { southwest : LatLng; northeast : LatLng }.

Record Geometry : Type := mkGeometry {
  bounds : option Bounds;
  viewport : Bounds
}.

Record GeocodeResult : Type := mkGeocodeResult { geometry : Geometry }.

Record GeocodeResponse : Type := mkGeocodeResponse {
  results : list GeocodeResult
}.

Record Location : Type := mkLocation { latitude : number; longitude : number }.

Record DisplayName : Type := mkDisplayName {
  text : string;
  languageCode : string
}.

Record Place : Type := mkPlace {
  id : string;
  formattedAddress : option string;
  location : option Location;
  rating : option number;
  websiteUri : option string;
  userRatingCount : option number;
  displayName : option DisplayName
}.

Record PlacesSearchResponse : Type := mkPlacesSearchResponse {
  places : option (list Place)
}.

(* ------------------------------------------------------------------ *)
(** ** Constants and helpers *)

Definition STEP_KM : number := of_Z 3.
Definition SEARCH_RADIUS : number := of_Z 3000.

Definition kmToDeg (km : number) : number := div km (of_Z 111).

(* ------------------------------------------------------------------ *)
(** ** Grid *)

(** The loops of [generateGrid] over [JsNumber], for the orchestrator,
    which takes the grid as it comes. Sums are exact here; what is stated
    of these loops depends on the comparisons of the counters only. The
    loops with the sums as the language rounds them are in [Binary64]
    below. *)

(** The inner [for] of [generateGrid]: the loop variable is [lng_], the
    array being filled is [points]. *)
Fixpoint lng_loop (fuel : nat) (step : number) (ne : LatLng)
    (lat_ lng_ : number) (points : list LatLng) : option (list LatLng) :=
  match fuel with
  | O => None
  | S fuel' =>
      if leb lng_ (lng ne)
      then lng_loop fuel' step ne lat_ (add lng_ step)
                    (points ++ [mkLatLng lat_ lng_])
      else Some points
  end.

(** The outer [for]: one run of the inner loop per value of [lat_]. *)
Fixpoint lat_loop (fuel : nat) (step : number) (sw ne : LatLng)
    (lat_ : number) (points : list LatLng) : option (list LatLng) :=
  match fuel with
  | O => None
  | S fuel' =>
      if leb lat_ (lat ne)
      then match lng_loop fuel step ne lat_ (lng sw) points with
           | None => None
           | Some points' => lat_loop fuel' step sw ne (add lat_ step) points'
           end
      else Some points
  end.

(** The body of [generateGrid] with its local constant [step] left open. *)
Definition generateGrid_with (fuel : nat) (step : number) (sw ne : LatLng)
  : option (list LatLng) :=
  lat_loop fuel step sw ne (lat sw) [].

Definition generateGrid (fuel : nat) (sw ne : LatLng) : option (list LatLng) :=
  let step := kmToDeg STEP_KM in
  generateGrid_with fuel step sw ne.

Definition pt (a b : Q) : LatLng := mkLatLng (Fin a) (Fin b).

(** The values a counting loop visits when it starts at [x], adds [s]
    after every round and runs [n] rounds. *)
Fixpoint steps (n : nat) (x s : Q) : list Q :=
  match n with
  | O => []
  | S n' => x :: steps n' (x + s) s
  end.

(** Number of rounds of [for (v = x; v <= hi; v += s)] for [0 < s]. *)
Definition rounds (x hi s : Q) : nat :=
  Z.to_nat (Qfloor ((hi - x) / s) + 1).

(** A raster written row by row. *)
Definition raster (lats lngs : list Q) : list LatLng :=
  flat_map (fun a => map (fun b => pt a b) lngs) lats.


(* ------------------------------------------------------------------ *)
(** ** Grid, in binary64 *)

(** The loops of [generateGrid] with the numbers of the language: binary64
    values, added and divided with rounding to nearest, ties to even, and
    compared as the language compares them ([NaN] compares false, the two
    zeros are equal). The operations are those of the specification of
    floating-point arithmetic of the standard library, at precision 53
    and largest exponent 1024. *)
Module Binary64.

Definition prec : Z := 53.
Definition emax : Z := 1024.

Definition number : Type := SpecFloat.spec_float.

(** [a + b] *)
Definition add (a b : number) : number := SpecFloat.SFadd prec emax a b.

(** [a / b] *)
Definition div (a b : number) : number := SpecFloat.SFdiv prec emax a b.

(** [a <= b] and [a < b] *)
Definition leb (a b : number) : bool := SpecFloat.SFleb a b.
Definition ltb (a b : number) : bool := SpecFloat.SFltb a b.

(** A whole number written in the source, or read from it. *)
Definition of_Z (z : Z) : number := SpecFloat.binary_normalize prec emax z 0 false.

Record LatLng : Type := mkLatLng { lat : number; lng : number }.

Definition STEP_KM : number := of_Z 3.

Definition kmToDeg (km : number) : number := div km (of_Z 111).

(** The inner [for] of [generateGrid]. *)
Fixpoint lng_loop (fuel : nat) (step : number) (ne : LatLng)
    (lat_ lng_ : number) (points : list LatLng) : option (list LatLng) :=
  match fuel with
  | O => None
  | S fuel' =>
      if leb lng_ (lng ne)
      then lng_loop fuel' step ne lat_ (add lng_ step)
                    (points ++ [mkLatLng lat_ lng_])
      else Some points
  end.

(** The outer [for]. *)
Fixpoint lat_loop (fuel : nat) (step : number) (sw ne : LatLng)
    (lat_ : number) (points : list LatLng) : option (list LatLng) :=
  match fuel with
  | O => None
  | S fuel' =>
      if leb lat_ (lat ne)
      then match lng_loop fuel step ne lat_ (lng sw) points with
           | None => None
           | Some points' => lat_loop fuel' step sw ne (add lat_ step) points'
           end
      else Some points
  end.

(** The body of [generateGrid] with its local constant [step] left open. *)
Definition generateGrid_with (fuel : nat) (step : number) (sw ne : LatLng)
  : option (list LatLng) :=
  lat_loop fuel step sw ne (lat sw) [].

Definition generateGrid (fuel : nat) (sw ne : LatLng) : option (list LatLng) :=
  let step := kmToDeg STEP_KM in
  generateGrid_with fuel step sw ne.

(** The values that the counter of [for (v = x; v <= hi; v += s)] has in
    its first [n] rounds: [x], [x + s], [(x + s) + s], ... *)
Fixpoint iterates (n : nat) (x s : number) : list number :=
  match n with
  | O => []
  | S n' => x :: iterates n' (add x s) s
  end.

(** The counter after [n] additions. *)
Fixpoint nth_iterate (n : nat) (x s : number) : number :=
  match n with
  | O => x
  | S n' => nth_iterate n' (add x s) s
  end.

(** [for (v = x; v <= hi; v += s)] runs its body exactly [n] times: the
    test holds for the first [n] values of the counter and fails for the
    next. *)
Fixpoint makes_rounds (n : nat) (x hi s : number) : bool :=
  match n with
  | O => negb (leb x hi)
  | S n' => leb x hi && makes_rounds n' (add x s) hi s
  end.

(** A raster written row by row. *)
Definition raster (lats lngs : list number) : list LatLng :=
  flat_map (fun a => map (fun b => mkLatLng a b) lngs) lats.

(** The point with whole-number coordinates [a] and [b]. *)
Definition corner (a b : Z) : LatLng := mkLatLng (of_Z a) (of_Z b).

End Binary64.

(* ------------------------------------------------------------------ *)
(** ** Strings *)

Module JsString.

Definition dquote : ascii := ascii_of_nat 34.
Definition comma : string := ",".
Definition newline : string := String (ascii_of_nat 10) EmptyString.

(** [s.replace(/c/g, by)] for a single character [c]. *)
Fixpoint replace_char (c : ascii) (by_ : string) (s : string) : string :=
  match s with
  | EmptyString => EmptyString
  | String a s' =>
      if Ascii.eqb a c
      then by_ ++ replace_char c by_ s'
      else String a (replace_char c by_ s')
  end.

(** [l.join(sep)] *)
Definition join (sep : string) (l : list string) : string := String.concat sep l.

(** [s.startsWith(p)] *)
Definition startsWith (s p : string) : bool := String.prefix p s.

(** [s.split(c)] for a single character [c]; never the empty array. *)
Fixpoint split (c : ascii) (s : string) : list string :=
  match s with
  | EmptyString => [EmptyString]
  | String a s' =>
      if Ascii.eqb a c
      then EmptyString :: split c s'
      else match split c s' with
           | [] => [String a EmptyString]
           | h :: t => String a h :: t
           end
  end.

(** The white space of [\s] and of [trim], restricted to ASCII. *)
Definition is_space (a : ascii) : bool :=
  let n := nat_of_ascii a in
  Nat.eqb n 32 || (Nat.leb 9 n && Nat.leb n 13).

Fixpoint trimStart (s : string) : string :=
  match s with
  | EmptyString => EmptyString
  | String a s' => if is_space a then trimStart s' else s
  end.

Fixpoint rev_string (acc s : string) : string :=
  match s with
  | EmptyString => acc
  | String a s' => rev_string (String a acc) s'
  end.

Definition trimEnd (s : string) : string :=
  rev_string EmptyString (trimStart (rev_string EmptyString s)).

Definition trim (s : string) : string := trimEnd (trimStart s).

(** [s.replace(/\s+/g, by)]: every maximal run of white space becomes one
    copy of [by]. [in_run] tells that the previous character was white. *)
Fixpoint replace_spaces (by_ : string) (in_run : bool) (s : string) : string :=
  match s with
  | EmptyString => EmptyString
  | String a s' =>
      if is_space a
      then if in_run then replace_spaces by_ true s'
           else by_ ++ replace_spaces by_ true s'
      else String a (replace_spaces by_ false s')
  end.

(** Truthiness of a string: only the empty string is falsy. *)
Definition truthy (s : string) : bool :=
  match s with EmptyString => false | _ => true end.

End JsString.

(* ------------------------------------------------------------------ *)
(** ** Map: insertion-ordered, keys unique *)

Module JsMap.

Definition t (V : Type) : Type := list (string * V).

Definition empty {V} : t V := [].

(** [m.set(k, v)]: an existing key keeps its place and takes the new
    value, a new key goes to the end. *)
Fixpoint set {V} (k : string) (v : V) (m : t V) : t V :=
  match m with
  | [] => [(k, v)]
  | (k', v') :: m' =>
      if String.eqb k' k then (k', v) :: m' else (k', v') :: set k v m'
  end.

(** [m.get(k)] *)
Fixpoint get {V} (k : string) (m : t V) : option V :=
  match m with
  | [] => None
  | (k', v') :: m' => if String.eqb k' k then Some v' else get k m'
  end.

(** [[...m.keys()]] and [[...m.values()]] *)
Definition keys {V} (m : t V) : list string := map fst m.
Definition values {V} (m : t V) : list V := map snd m.

End JsMap.

(** [l.slice(0, end_)] *)
Definition slice0 {A} (l : list A) (end_ : number) : list A :=
  let len := Z.of_nat (List.length l) in
  match end_ with
  | NaN => []
  | NegInf => []
  | PosInf => l
  | Fin q =>
      let relativeEnd := Qtrunc q in
      let final :=
        if (relativeEnd <? 0)%Z then Z.max (len + relativeEnd) 0
        else Z.min relativeEnd len in
      firstn (Z.to_nat final) l
  end.

(* ------------------------------------------------------------------ *)
(** ** Effects: errors, the event trace, the environment *)

Inductive JsError : Type := Error (message : string).

(** What [console.log] is given, with the template strings left unrendered. *)
Inductive LogLine : Type :=
| LogGeocoding (city : string)
| LogTypes (types : list string)
| LogTestMode (shown total : nat)
| LogGridPoints (n : nat)
| LogFound (n : nat)
| LogExported (fileName : string).

(** What [console.error] is given. *)
Inductive ErrLine : Type :=
| ErrUsage
| ErrValue (e : JsError).

(** One entry per call that leaves the program, with what came back.
    [GeocodeCall] and [PlacesCall] stand for [fetch] followed by
    [res.json()]; the left injection is a rejected promise. *)
Inductive Event : Type :=
| ConsoleLog (l : LogLine)
| ConsoleError (l : ErrLine)
| GeocodeCall (address key : string) (answer : JsError + GeocodeResponse)
| PlacesCall (center : LatLng) (radius : number) (includedTypes : list string)
             (key : string) (answer : JsError + PlacesSearchResponse)
| Sleep (ms : number)
| WriteFile (fileName data : string) (failure : option JsError)
| Uncaught (e : JsError).

Definition Trace : Type := list Event.

(** The language built-ins that are not spelled out here and the outside
    world. The world sees the whole history when it answers. *)
Record Env : Type := mkEnv {
  Number_of : string -> number;
  String_of : number -> string;
  geocode_answer : Trace -> string -> JsError + GeocodeResponse;
  places_answer : Trace -> LatLng -> list string -> JsError + PlacesSearchResponse;
  write_failure : Trace -> string -> string -> option JsError
}.

Inductive outcome (A : Type) : Type :=
| Returned (a : A)
| Thrown (e : JsError)
| OutOfFuel.
Arguments Returned {A} a.
Arguments Thrown {A} e.
Arguments OutOfFuel {A}.

(** Computations that extend the trace and return, throw or run on. *)
Definition M (A : Type) : Type := Trace -> outcome A * Trace.

Definition ret {A} (a : A) : M A := fun t => (Returned a, t).
Definition throw {A} (e : JsError) : M A := fun t => (Thrown e, t).
Definition bind {A B} (c : M A) (k : A -> M B) : M B :=
  fun t =>
    match c t with
    | (Returned a, t') => k a t'
    | (Thrown e, t') => (Thrown e, t')
    | (OutOfFuel, t') => (OutOfFuel, t')
    end.
Definition emit (e : Event) : M unit := fun t => (Returned tt, t ++ [e]).
Definition history : M Trace := fun t => (Returned t, t).
Definition lift_fuel {A} (o : option A) : M A :=
  fun t => match o with Some a => (Returned a, t) | None => (OutOfFuel, t) end.
Definition lift_sum {A} (r : JsError + A) : M A :=
  match r with inl e => throw e | inr a => ret a end.

Declare Scope js_scope.
Delimit Scope js_scope with js.
Notation "x <- c ;; k" := (bind c (fun x => k))
  (at level 61, c at next level, right associativity) : js_scope.
Notation "c ;;; k" := (bind c (fun _ => k))
  (at level 61, right associativity) : js_scope.
Open Scope js_scope.

Definition console_log (l : LogLine) : M unit := emit (ConsoleLog l).
Definition console_error (l : ErrLine) : M unit := emit (ConsoleError l).
Definition sleep (ms : number) : M unit := emit (Sleep ms).

Section Program.

Variable env : Env.
Variable API_KEY : string.

(* ------------------------------------------------------------------ *)
(** ** Geocode *)

Definition geocodeCity (city : string) : M Bounds :=
  t <- history ;;
  let answer := geocode_answer env t city in
  emit (GeocodeCall city API_KEY answer) ;;;
  json <- lift_sum answer ;;
  match results json with
  | [] => throw (Error "No geocode results")
  | first :: _ =>
      let geometry := geometry first in
      ret (match bounds geometry with
           | Some b => b
           | None => viewport geometry
           end)
  end.

(* ------------------------------------------------------------------ *)
(** ** Places *)

Definition searchNearby (lat_ lng_ : number) (types : list string)
  : M (list Place) :=
  t <- history ;;
  let center := mkLatLng lat_ lng_ in
  let answer := places_answer env t center types in
  emit (PlacesCall center SEARCH_RADIUS types API_KEY answer) ;;;
  json <- lift_sum answer ;;
  ret (match places json with
       | Some ps => ps
       | None => []
       end).

(* ------------------------------------------------------------------ *)
(** ** CSV *)

Definition header : list string :=
  [ "id"; "name"; "rating"; "userRatingCount"; "websiteUri";
    "formattedAddress"; "latitude"; "longitude" ]%string.

(** The argument of [escape] is a string, a number or [undefined]. *)
Definition CsvValue : Type := option (string + number).

Definition of_string (s : option string) : CsvValue := option_map inl s.
Definition of_number (n : option number) : CsvValue := option_map inr n.

(** [String(v)] for a string or a number. *)
Definition String_ (v : string + number) : string :=
  match v with
  | inl s => s
  | inr n => String_of env n
  end.

Definition escape (value : CsvValue) : string :=
  let v := match value with Some v => v | None => inl EmptyString end in
  let q := String JsString.dquote EmptyString in
  (q ++ JsString.replace_char JsString.dquote (q ++ q) (String_ v) ++ q)%string.

Definition row_fields (p : Place) : list string :=
  [ escape (of_string (Some (id p)));
    escape (of_string (option_map text (displayName p)));
    escape (of_number (rating p));
    escape (of_number (userRatingCount p));
    escape (of_string (websiteUri p));
    escape (of_string (formattedAddress p));
    escape (of_number (option_map latitude (location p)));
    escape (of_number (option_map longitude (location p))) ].

Definition toCsv (places : list Place) : string :=
  let rows := map (fun p => JsString.join JsString.comma (row_fields p)) places in
  JsString.join JsString.newline (JsString.join JsString.comma header :: rows).

(* ------------------------------------------------------------------ *)
(** ** Main *)

(** The inner [for] of [run]: every place goes into the map under its id. *)
Definition merge (unique : JsMap.t Place) (places : list Place) : JsMap.t Place :=
  fold_left (fun m place => JsMap.set (id place) place m) places unique.

(** The outer [for] of [run] over the grid. *)
Fixpoint search_loop (types : list string) (grid : list LatLng)
    (unique : JsMap.t Place) : M (JsMap.t Place) :=
  match grid with
  | [] => ret unique
  | p :: rest =>
      places <- searchNearby (lat p) (lng p) types ;;
      let unique' := merge unique places in
      sleep (of_Z 300) ;;;
      search_loop types rest unique'
  end.

(** [if (testLimit)] *)
Definition limit_given (testLimit : option number) : bool :=
  match testLimit with
  | None => false
  | Some n => JsNumber.truthy n
  end.

(** [testLimit && testLimit > 0 ? fullGrid.slice(0, testLimit) : fullGrid] *)
Definition select_grid (testLimit : option number) (fullGrid : list LatLng)
  : list LatLng :=
  match testLimit with
  | Some n =>
      if JsNumber.truthy n && gtb n (of_Z 0) then slice0 fullGrid n else fullGrid
  | None => fullGrid
  end.

Definition fileName_of (city : string) : string :=
  ("places_" ++ JsString.replace_spaces "_" false city ++ ".csv")%string.

Definition writeFileSync (fileName data : string) : M unit :=
  t <- history ;;
  let failure := write_failure env t fileName data in
  emit (WriteFile fileName data failure) ;;;
  match failure with
  | Some e => throw e
  | None => ret tt
  end.

Definition run (fuel : nat) (city : string) (types : list string)
    (testLimit : option number) : M unit :=
  console_log (LogGeocoding city) ;;;
  console_log (LogTypes types) ;;;
  bounds <- geocodeCity city ;;
  fullGrid <- lift_fuel (generateGrid fuel (southwest bounds) (northeast bounds)) ;;
  let grid := select_grid testLimit fullGrid in
  (if limit_given testLimit
   then console_log (LogTestMode (List.length grid) (List.length fullGrid))
   else console_log (LogGridPoints (List.length grid))) ;;;
  unique <- search_loop types grid JsMap.empty ;;
  let results := JsMap.values unique in
  console_log (LogFound (List.length results)) ;;;
  let csv := toCsv results in
  let fileName := fileName_of city in
  writeFileSync fileName csv ;;;
  console_log (LogExported fileName).

End Program.

(* ------------------------------------------------------------------ *)
(** ** CLI *)

Record Options : Type := mkOptions {
  testLimit : option number;
  types : list string;
  cityParts : list string
}.

Definition default_options : Options :=
  mkOptions None ["restaurant"; "cafe"]%string [].

Definition eq_sign : ascii := "=".
Definition comma_sign : ascii := ",".

(** [arg.split("=")[1]]; both callers know that [arg] contains the sign, so
    the element is there. *)
Definition after_eq (arg : string) : string :=
  nth 1 (JsString.split eq_sign arg) EmptyString.

(** One round of the loop over [rawArgs]. *)
Definition parse_arg (env : Env) (o : Options) (arg : string) : Options :=
  if JsString.startsWith arg "--test=" then
    mkOptions (Some (Number_of env (after_eq arg))) (types o) (cityParts o)
  else if JsString.startsWith arg "--types=" then
    mkOptions (testLimit o)
              (filter JsString.truthy
                 (map JsString.trim (JsString.split comma_sign (after_eq arg))))
              (cityParts o)
  else
    mkOptions (testLimit o) (types o) (cityParts o ++ [arg]).

Definition parse_args (env : Env) (rawArgs : list string) : Options :=
  fold_left (parse_arg env) rawArgs default_options.

(** How the process ends. *)
Inductive Ending : Type :=
| Exit (code : nat)
| Running.

(** The whole script: [GOOGLE_API_KEY] is the value of the environment
    variable if it is set, [argv] is [process.argv]. An exception that
    reaches the top level ends the process with code 1. *)
Definition main (env : Env) (GOOGLE_API_KEY : option string)
    (argv : list string) (fuel : nat) : Ending * Trace :=
  match GOOGLE_API_KEY with
  | None | Some EmptyString =>
      (Exit 1, [Uncaught (Error "Missing GOOGLE_API_KEY")])
  | Some API_KEY =>
      let rawArgs := skipn 2 argv in
      let o := parse_args env rawArgs in
      let city := JsString.join " " (cityParts o) in
      if negb (JsString.truthy city) then
        (Exit 1, [ConsoleError ErrUsage])
      else
        match run env API_KEY fuel city (types o) (testLimit o) [] with
        | (Returned _, t) => (Exit 0, t)
        | (Thrown err, t) => (Exit 1, t ++ [ConsoleError (ErrValue err)])
        | (OutOfFuel, t) => (Running, t)
        end
  end.

(* ------------------------------------------------------------------ *)
(** ** Reading a trace *)

(** [json.places ?? []] *)
Definition places_or_empty (json : PlacesSearchResponse) : list Place :=
  match places json with
  | Some ps => ps
  | None => []
  end.

(** The centres of the nearby searches that were sent, oldest first. *)
Fixpoint searched_points (t : Trace) : list LatLng :=
  match t with
  | [] => []
  | PlacesCall c _ _ _ _ :: t' => c :: searched_points t'
  | _ :: t' => searched_points t'
  end.

(** The answered searches, oldest first: the centre and the record list
    that came back for it. *)
Fixpoint answers_in (t : Trace) : list (LatLng * list Place) :=
  match t with
  | [] => []
  | PlacesCall c _ _ _ (inr json) :: t' => (c, places_or_empty json) :: answers_in t'
  | _ :: t' => answers_in t'
  end.

Definition responses_in (t : Trace) : list (list Place) := map snd (answers_in t).

(** The errors of the searches that were not answered. *)
Fixpoint failed_searches (t : Trace) : list JsError :=
  match t with
  | [] => []
  | PlacesCall _ _ _ _ (inl e) :: t' => e :: failed_searches t'
  | _ :: t' => failed_searches t'
  end.

(** Every call of [writeFileSync], successful or not. *)
Fixpoint write_calls (t : Trace) : list (string * string) :=
  match t with
  | [] => []
  | WriteFile f d _ :: t' => (f, d) :: write_calls t'
  | _ :: t' => write_calls t'
  end.

(** Every call of the geocoding service. *)
Fixpoint geocode_calls (t : Trace) : list string :=
  match t with
  | [] => []
  | GeocodeCall a _ _ :: t' => a :: geocode_calls t'
  | _ :: t' => geocode_calls t'
  end.

(** The record that is left under key [k] when [batch] has gone into a map
    that held [v] there: the last one of [batch] with that id, if any. *)
Definition last_with (k : string) (batch : list Place) (v : Place) : Place :=
  fold_left (fun acc p => if String.eqb k (id p) then p else acc) batch v.

(** The last record of [batch] with id [k]. *)
Definition find_last (k : string) (batch : list Place) : option Place :=
  find (fun p => String.eqb (id p) k) (rev batch).

(** Every record of the map sits under its own id. *)
Definition keyed_by_id (m : JsMap.t Place) : Prop :=
  Forall (fun kv => id (snd kv) = fst kv) m.

(** *** The export format, as a table of cells *)

(** A cell: the content between two double quotes, with every double quote
    of the content written twice. *)
Definition quoted (content : list ascii) : list ascii :=
  JsString.dquote
    :: flat_map (fun a => if Ascii.eqb a JsString.dquote
                          then [JsString.dquote; JsString.dquote]
                          else [a]) content
    ++ [JsString.dquote].

(** The eight columns of a record, in the order of the header; [None] is
    a field that the record does not have. *)
Definition columns (env : Env) (p : Place) : list (option string) :=
  [ Some (id p);
    option_map text (displayName p);
    option_map (String_of env) (rating p);
    option_map (String_of env) (userRatingCount p);
    websiteUri p;
    formattedAddress p;
    option_map (fun l => String_of env (latitude l)) (location p);
    option_map (fun l => String_of env (longitude l)) (location p) ].

Definition cell (c : option string) : string :=
  string_of_list_ascii
    (quoted (match c with Some s => list_ascii_of_string s | None => [] end)).

Definition line (cells : list string) : string := JsString.join JsString.comma cells.

(** *** The export format, with its characters written out *)

(** The text [s] with every double quote (character 34) written twice. *)
Fixpoint csv_double (s : string) : string :=
  match s with
  | EmptyString => EmptyString
  | String a s' =>
      if Ascii.eqb a "034"
      then String "034" (String "034" (csv_double s'))
      else String a (csv_double s')
  end.

(** A cell: a double quote, the content with its double quotes doubled, a
    double quote; a missing field has the empty content. *)
Definition csv_cell (c : option string) : string :=
  String "034"
    (csv_double (match c with Some s => s | None => EmptyString end)
     ++ String "034" EmptyString).

(** A string of ASCII characters only. *)
Fixpoint ascii_only (s : string) : bool :=
  match s with
  | EmptyString => true
  | String a s' => Nat.ltb (nat_of_ascii a) 128 && ascii_only s'
  end.

(** An argument that the loop over [rawArgs] takes as an option. *)
Definition is_option (arg : string) : bool :=
  JsString.startsWith arg "--test=" || JsString.startsWith arg "--types=".

(* ------------------------------------------------------------------ *)
(** ** Further reading aids *)

(** The ids of [ids] that are not in [seen], each at its first place. *)
Fixpoint first_seen (seen ids : list string) : list string :=
  match ids with
  | [] => []
  | k :: rest =>
      if existsb (String.eqb k) seen
      then first_seen seen rest
      else k :: first_seen (seen ++ [k]) rest
  end.

(** Reading a cell back: [undouble] reads the content up to the closing
    double quote, taking two double quotes for one; [unquote] wants the
    opening double quote first. [None] is a cell that is not well formed. *)
Fixpoint undouble (l : list ascii) : option (list ascii) :=
  match l with
  | [] => None
  | a :: rest =>
      if Ascii.eqb a JsString.dquote
      then match rest with
           | [] => Some []
           | b :: rest' =>
               if Ascii.eqb b JsString.dquote
               then option_map (cons JsString.dquote) (undouble rest')
               else None
           end
      else option_map (cons a) (undouble rest)
  end.

Definition unquote (l : list ascii) : option (list ascii) :=
  match l with
  | [] => None
  | a :: rest => if Ascii.eqb a JsString.dquote then undouble rest else None
  end.

(** The events of the loop of [run] for a list of answered searches: the
    call, then the pause. *)
Definition paced_calls (key : string) (types : list string)
    (answered : list (LatLng * PlacesSearchResponse)) : Trace :=
  flat_map (fun a => [PlacesCall (fst a) SEARCH_RADIUS types key (inr (snd a));
                      Sleep (of_Z 300)]) answered.

(** The two kinds of option, as the [if] / [else if] of the loop over the
    arguments tells them apart. *)
Definition is_test (arg : string) : bool := JsString.startsWith arg "--test=".
Definition is_types (arg : string) : bool :=
  negb (JsString.startsWith arg "--test=") && JsString.startsWith arg "--types=".

(** A string without the character [c]. *)
Fixpoint free_of (c : ascii) (s : string) : bool :=
  match s with
  | EmptyString => true
  | String a s' => negb (Ascii.eqb a c) && free_of c s'
  end.

(** A string of white space only. *)
Fixpoint blank (s : string) : bool :=
  match s with
  | EmptyString => true
  | String a s' => JsString.is_space a && blank s'
  end.

(** A string without white space. *)
Fixpoint spaceless (s : string) : bool :=
  match s with
  | EmptyString => true
  | String a s' => negb (JsString.is_space a) && spaceless s'
  end.

(** The bounds that [geocodeCity] takes from an answer. *)
Definition bounds_of (first : GeocodeResult) : Bounds :=
  match bounds (geometry first) with
  | Some b => b
  | None => viewport (geometry first)
  end.

(** The [city] of the script: the place-name arguments joined by blanks. *)
Definition city_of (env : Env) (argv : list string) : string :=
  JsString.join " " (cityParts (parse_args env (skipn 2 argv))).

(** The characters of a string after its leading white space. *)
Fixpoint drop_spaces (l : list ascii) : list ascii :=
  match l with
  | [] => []
  | a :: l' => if JsString.is_space a then drop_spaces l' else l
  end.

(** A list of characters that does not begin with white space. *)
Definition clean_start (l : list ascii) : Prop :=
  match l with
  | [] => True
  | a :: _ => JsString.is_space a = false
  end.

(** The errors of the calls of [writeFileSync] that failed. *)
Fixpoint failed_writes (t : Trace) : list JsError :=
  match t with
  | [] => []
  | WriteFile _ _ (Some e) :: t' => e :: failed_writes t'
  | _ :: t' => failed_writes t'
  end.

(** A point of the box with the given corners. *)
Definition in_box (swlat swlng nelat nelng : Q) (p : LatLng) : Prop :=
  exists a b, p = pt a b /\ swlat <= a <= nelat /\ swlng <= b <= nelng.

(* ------------------------------------------------------------------ *)
(** ** A small world to run the program in *)

Module Sample.

(** Stand-ins for the two built-in conversions, exact on the whole
    numbers written with decimal digits that are used below. *)
Definition Number_of (s : string) : number :=
  match NilEmpty.uint_of_string s with
  | Some u => of_Z (Z.of_uint u)
  | None => NaN
  end.

Definition String_of (n : number) : string :=
  match n with
  | Fin q => NilZero.string_of_int (Z.to_int (Qfloor q))
  | NaN => "NaN"
  | PosInf => "Infinity"
  | NegInf => "-Infinity"
  end.

(** The town: a viewport of 0.05 by 0.05 degrees, hence two rows of two
    grid points. *)
Definition sw : LatLng := pt 10 20.
Definition ne : LatLng := pt (1005 # 100) (2005 # 100).

Definition geocoded : GeocodeResponse :=
  mkGeocodeResponse [mkGeocodeResult (mkGeometry None (mkBounds sw ne))].

Definition grid : list LatLng :=
  let s := inject_Z 3 / inject_Z 111 in
  [pt 10 20; pt 10 (20 + s); pt (10 + s) 20; pt (10 + s) (20 + s)].

Definition place (id_ : string) (stars : Z) : Place :=
  mkPlace id_ None None (Some (of_Z stars)) None None None.

(** The [n]-th search finds the place P1, rated [n], and one place of its
    own. *)
Definition found (n : nat) : PlacesSearchResponse :=
  mkPlacesSearchResponse
    (Some [place "P1" (Z.of_nat n);
           place (String (ascii_of_nat (65 + n)) EmptyString) 3]).

Definition world (answer : nat -> JsError + PlacesSearchResponse) : Env :=
  mkEnv Number_of String_of
        (fun _ _ => inr geocoded)
        (fun t _ _ => answer (List.length (searched_points t)))
        (fun _ _ _ => None).

(** Every search is answered. *)
Definition calm : Env := world (fun n => inr (found n)).

(** The second search is not answered. *)
Definition outage : Env :=
  world (fun n => if Nat.eqb n 1 then inl (Error "unavailable") else inr (found n)).

(** Every answer comes without the [places] field. *)
Definition barren : Env := world (fun _ => inr (mkPlacesSearchResponse None)).

Definition key : string := "k".
Definition kinds : list string := ["cafe"]%string.
Definition town : string := "Town".

(** The loop of [run] over the four grid points, every search answered. *)
Definition searched : outcome (JsMap.t Place) * Trace :=
  search_loop calm key kinds grid JsMap.empty [].

Definition found_map : JsMap.t Place :=
  match fst searched with
  | Returned unique => unique
  | _ => JsMap.empty
  end.

(** The trace of [run] up to the moment the grid is generated. *)
Definition geocoded_trace : Trace :=
  [ConsoleLog (LogGeocoding town); ConsoleLog (LogTypes kinds);
   GeocodeCall town key (inr geocoded)].

End Sample.

(** Two worlds in which something goes wrong outside the searches. *)
Module Trouble.

(** The geocoder knows no such place. *)
Definition nowhere : Env :=
  mkEnv Sample.Number_of Sample.String_of
        (fun _ _ => inr (mkGeocodeResponse []))
        (fun _ _ _ => inr (Sample.found 0))
        (fun _ _ _ => None).

(** The file cannot be written. *)
Definition readonly : Env :=
  mkEnv Sample.Number_of Sample.String_of
        (fun _ _ => inr Sample.geocoded)
        (fun t _ _ => inr (Sample.found (List.length (searched_points t))))
        (fun _ _ _ => Some (Error "EACCES")).

Definition argv : list string := ["node"; "main.ts"; "Town"]%string.

End Trouble.

(* ================================================================== *)
(** * Properties *)

(* ------------------------------------------------------------------ *)
(** ** Counting loops over finite numbers *)

Section Rounds.

Variables (s : Q).
Hypothesis s_pos : 0 < s.

Lemma Qfloor_unique (z : Z) (q : Q) :
  inject_Z z <= q -> q < inject_Z (z + 1) -> Qfloor q = z.
Proof.
  intros Hlo Hhi.
  assert (z <= Qfloor q)%Z as H1.
  { rewrite <- (Qfloor_Z z). now apply Qfloor_resp_le. }
  assert (Qfloor q < z + 1)%Z as H2.
  { rewrite Zlt_Qlt. eapply Qle_lt_trans; [apply Qfloor_le | exact Hhi]. }
  lia.
Qed.

Lemma Qfloor_pred (q : Q) : Qfloor (q - 1) = (Qfloor q - 1)%Z.
Proof.
  apply Qfloor_unique.
  - assert (H := Qfloor_le q).
    replace (Qfloor q - 1)%Z with (Qfloor q + - (1))%Z by lia.
    rewrite inject_Z_plus, inject_Z_opp.
    change (inject_Z 1) with 1. lra.
  - assert (H := Qlt_floor q).
    replace (Qfloor q - 1 + 1)%Z with (Qfloor q) by lia.
    rewrite inject_Z_plus in H. change (inject_Z 1) with 1 in H. lra.
Qed.

Lemma rounds_stop (x hi : Q) : hi < x -> rounds x hi s = O.
Proof.
  intros Hlt. unfold rounds.
  assert ((hi - x) / s < 0) as Hneg.
  { apply Qlt_shift_div_r; [exact s_pos | lra]. }
  assert (Qfloor ((hi - x) / s) < 0)%Z.
  { rewrite Zlt_Qlt. eapply Qle_lt_trans; [apply Qfloor_le | exact Hneg]. }
  lia.
Qed.

Lemma rounds_go (x hi : Q) : x <= hi -> rounds x hi s = S (rounds (x + s) hi s).
Proof.
  intros Hle. unfold rounds.
  assert ((hi - (x + s)) / s == (hi - x) / s - 1) as E by (field; lra).
  rewrite (Qfloor_comp _ _ E), Qfloor_pred.
  assert (0 <= (hi - x) / s) as Hnn.
  { apply Qle_shift_div_l; [exact s_pos | lra]. }
  assert (0 <= Qfloor ((hi - x) / s))%Z.
  { rewrite <- (Qfloor_Z 0). now apply Qfloor_resp_le. }
  lia.
Qed.

Lemma rounds_O_inv (x hi : Q) : rounds x hi s = O -> hi < x.
Proof.
  intros H. destruct (Qlt_le_dec hi x) as [Hlt | Hle]; [exact Hlt |].
  rewrite (rounds_go Hle) in H. discriminate.
Qed.

Lemma rounds_S_inv (x hi : Q) (m : nat) :
  rounds x hi s = S m -> x <= hi /\ rounds (x + s) hi s = m.
Proof.
  intros H. destruct (Qlt_le_dec hi x) as [Hlt | Hle].
  - rewrite (rounds_stop Hlt) in H. discriminate.
  - split; [exact Hle |]. rewrite (rounds_go Hle) in H. now injection H.
Qed.

Lemma steps_within (hi : Q) (m : nat) :
  forall x, rounds x hi s = m -> Forall (fun v => v <= hi) (steps m x s).
Proof.
  induction m as [| m IH]; intros x H; simpl.
  - constructor.
  - apply rounds_S_inv in H as [Hle Hm]. constructor; auto.
Qed.

End Rounds.

(* ------------------------------------------------------------------ *)
(** ** Grid *)

Lemma Qle_bool_false (x y : Q) : y < x -> Qle_bool x y = false.
Proof.
  intros H. destruct (Qle_bool x y) eqn:E; [| reflexivity].
  apply Qle_bool_iff in E. lra.
Qed.

Lemma Qle_bool_true (x y : Q) : x <= y -> Qle_bool x y = true.
Proof. intros H. now apply Qle_bool_iff. Qed.

Lemma lng_loop_finite (s h la : Q) (nlat : number) :
  0 < s ->
  forall m x pts fuel,
    rounds x h s = m -> (m < fuel)%nat ->
    lng_loop fuel (Fin s) (mkLatLng nlat (Fin h)) (Fin la) (Fin x) pts
    = Some (pts ++ map (pt la) (steps m x s)).
Proof.
  intros Hs. induction m as [| m IH]; intros x pts fuel Hm Hf;
    (destruct fuel as [| fuel]; [lia |]); cbn [lng_loop lng leb add].
  - apply (rounds_O_inv Hs) in Hm.
    rewrite (Qle_bool_false Hm). simpl. now rewrite app_nil_r.
  - apply (rounds_S_inv Hs) in Hm as [Hle Hm].
    rewrite (Qle_bool_true Hle), (IH _ _ _ Hm) by lia.
    simpl. now rewrite <- app_assoc.
Qed.

Lemma lat_loop_finite (s nh wl el : Q) (wlat : number) :
  0 < s ->
  forall m la pts fuel,
    rounds la nh s = m -> (m + rounds wl el s < fuel)%nat ->
    lat_loop fuel (Fin s) (mkLatLng wlat (Fin wl)) (mkLatLng (Fin nh) (Fin el))
             (Fin la) pts
    = Some (pts ++ raster (steps m la s) (steps (rounds wl el s) wl s)).
Proof.
  intros Hs. induction m as [| m IH]; intros la pts fuel Hm Hf;
    (destruct fuel as [| fuel]; [lia |]); cbn [lat_loop lat lng leb add pt].
  - apply (rounds_O_inv Hs) in Hm.
    rewrite (Qle_bool_false Hm). simpl. now rewrite app_nil_r.
  - apply (rounds_S_inv Hs) in Hm as [Hle Hm].
    rewrite (Qle_bool_true Hle).
    rewrite (@lng_loop_finite s el la (Fin nh) Hs (rounds wl el s) wl pts (S fuel) eq_refl)
      by lia.
    rewrite (IH _ _ _ Hm) by lia.
    unfold raster. simpl. now rewrite <- app_assoc.
Qed.

(* ------------------------------------------------------------------ *)
(** ** Grid, in binary64 *)













(** The step of the source, 3 / 111 in binary64. *)
Example b64_step_value :
  Binary64.kmToDeg Binary64.STEP_KM
  = SpecFloat.S754_finite false 7790010166262480 (-58).
Proof. vm_compute. reflexivity. Qed.

(** The bounds of the loops are inclusive: a box of one point gives that
    point. *)
Example b64_box_of_one_point :
  Binary64.generateGrid 3 (Binary64.corner 10 20) (Binary64.corner 10 20)
  = Some [Binary64.corner 10 20].
Proof. vm_compute. reflexivity. Qed.

(** Between latitude 20 and latitude 21 the source's step gives 37 rows. *)
Example b64_rows_from_20_to_21 :
  option_map (@List.length Binary64.LatLng)
    (Binary64.generateGrid 40 (Binary64.corner 20 0) (Binary64.corner 21 0))
  = Some 37%nat.
Proof. vm_compute. reflexivity. Qed.





(* ------------------------------------------------------------------ *)
(** ** The map *)

Section MapFacts.

Context {V : Type}.
Implicit Types (m : JsMap.t V) (k : string) (v : V).

Lemma get_set_same k v m : JsMap.get k (JsMap.set k v m) = Some v.
Proof.
  induction m as [| [k' v'] m IH]; simpl.
  - now rewrite String.eqb_refl.
  - destruct (String.eqb k' k) eqn:E; simpl; rewrite E; auto.
Qed.

Lemma get_set_other k k' v m :
  k <> k' -> JsMap.get k' (JsMap.set k v m) = JsMap.get k' m.
Proof.
  intros Hne. induction m as [| [k0 v0] m IH]; simpl.
  - apply String.eqb_neq in Hne. now rewrite Hne.
  - destruct (String.eqb k0 k) eqn:E; simpl.
    + apply String.eqb_eq in E. subst k0.
      apply String.eqb_neq in Hne. now rewrite Hne.
    + now rewrite IH.
Qed.

Lemma keys_set_in k v m :
  In k (JsMap.keys m) -> JsMap.keys (JsMap.set k v m) = JsMap.keys m.
Proof.
  induction m as [| [k0 v0] m IH]; simpl; [tauto |].
  intros [-> | Hin].
  - now rewrite String.eqb_refl.
  - destruct (String.eqb k0 k); simpl; [reflexivity |].
    f_equal. now apply IH.
Qed.

Lemma keys_set_new k v m :
  ~ In k (JsMap.keys m) -> JsMap.keys (JsMap.set k v m) = JsMap.keys m ++ [k].
Proof.
  induction m as [| [k0 v0] m IH]; simpl; [reflexivity |].
  intros Hnin. destruct (String.eqb k0 k) eqn:E.
  - apply String.eqb_eq in E. tauto.
  - simpl. f_equal. apply IH. tauto.
Qed.

Lemma in_keys_set k k' v m :
  In k' (JsMap.keys (JsMap.set k v m)) <-> k' = k \/ In k' (JsMap.keys m).
Proof.
  destruct (in_dec string_dec k (JsMap.keys m)) as [Hin | Hnin].
  - rewrite keys_set_in by exact Hin. split; [tauto |]. intros [-> | H]; auto.
  - rewrite keys_set_new by exact Hnin. rewrite in_app_iff. simpl. split.
    + intros [H | [H | []]]; auto.
    + intros [-> | H]; auto.
Qed.

Lemma NoDup_keys_set k v m :
  NoDup (JsMap.keys m) -> NoDup (JsMap.keys (JsMap.set k v m)).
Proof.
  intros Hnd. destruct (in_dec string_dec k (JsMap.keys m)) as [Hin | Hnin].
  - now rewrite keys_set_in by exact Hin.
  - rewrite keys_set_new by exact Hnin.
    apply NoDup_app; [exact Hnd | repeat constructor; simpl; tauto |].
    intros x Hx [<- | []]. contradiction.
Qed.

Lemma get_in_keys k m :
  In k (JsMap.keys m) <-> exists v, JsMap.get k m = Some v.
Proof.
  induction m as [| [k0 v0] m IH]; simpl.
  - split; [tauto | intros [v H]; discriminate].
  - destruct (String.eqb k0 k) eqn:E.
    + apply String.eqb_eq in E. split; eauto.
    + apply String.eqb_neq in E. rewrite <- IH. tauto.
Qed.

Lemma get_in_values k v m : JsMap.get k m = Some v -> In v (JsMap.values m).
Proof.
  induction m as [| [k0 v0] m IH]; simpl; [discriminate |].
  destruct (String.eqb k0 k); [intros [= ->]; auto | auto].
Qed.

End MapFacts.

(* ------------------------------------------------------------------ *)
(** ** Merging *)

Lemma merge_app (m : JsMap.t Place) (a b : list Place) :
  merge m (a ++ b) = merge (merge m a) b.
Proof. unfold merge. apply fold_left_app. Qed.

Lemma merge_snoc (m : JsMap.t Place) (a : list Place) (p : Place) :
  merge m (a ++ [p]) = JsMap.set (id p) p (merge m a).
Proof. now rewrite merge_app. Qed.

Lemma merge_concat (rs : list (list Place)) :
  forall m, fold_left merge rs m = merge m (List.concat rs).
Proof.
  induction rs as [| r rs IH]; intros m; simpl; [reflexivity |].
  now rewrite IH, merge_app.
Qed.

Lemma merge_cons (k : string) (v : Place) (b : list Place) :
  forall m,
    merge ((k, v) :: m) b
    = (k, last_with k b v)
        :: merge m (filter (fun p => negb (String.eqb k (id p))) b).
Proof.
  revert v. induction b as [| p b IH]; intros v m; [reflexivity |].
  unfold merge, last_with in *. cbn [fold_left JsMap.set filter].
  destruct (String.eqb k (id p)) eqn:E; cbn [negb].
  - apply IH.
  - rewrite IH. reflexivity.
Qed.

Lemma last_with_snoc (k : string) (b : list Place) (p v : Place) :
  last_with k (b ++ [p]) v = if String.eqb k (id p) then p else last_with k b v.
Proof. unfold last_with. now rewrite fold_left_app. Qed.

Lemma last_with_twice (k : string) (b : list Place) :
  forall v, last_with k b (last_with k b v) = last_with k b v.
Proof.
  induction b as [| p b IH] using rev_ind; intros v; [reflexivity |].
  rewrite !last_with_snoc. destruct (String.eqb k (id p)); auto.
Qed.

Lemma merge_twice_empty (n : nat) :
  forall b, (List.length b <= n)%nat ->
    merge (merge JsMap.empty b) b = merge JsMap.empty b.
Proof.
  induction n as [| n IH]; intros b Hlen.
  - destruct b; [reflexivity | simpl in Hlen; lia].
  - destruct b as [| p b]; [reflexivity |].
    change (merge JsMap.empty (p :: b)) with (merge [(id p, p)] b).
    rewrite merge_cons.
    set (b' := filter (fun q => negb (String.eqb (id p) (id q))) b).
    rewrite merge_cons. cbn [filter]. rewrite String.eqb_refl. cbn [negb].
    fold b'. f_equal.
    + f_equal. unfold last_with at 1. cbn [fold_left].
      rewrite String.eqb_refl. reflexivity.
    + apply IH. simpl in Hlen.
      assert (List.length b' <= List.length b)%nat by apply filter_length_le.
      lia.
Qed.

(** C7. Putting the same batch of records into the map a second time
    changes nothing: neither the records nor their order. *)
Theorem merge_idempotent (unique : JsMap.t Place) (batch : list Place) :
  merge (merge unique batch) batch = merge unique batch.
Proof.
  revert batch. induction unique as [| [k v] m IH]; intros batch.
  - apply (@merge_twice_empty (List.length batch)). lia.
  - rewrite merge_cons. rewrite merge_cons. rewrite last_with_twice, IH.
    reflexivity.
Qed.

Lemma find_app_first {A} (f : A -> bool) (a b : list A) :
  find f (a ++ b) = match find f a with Some x => Some x | None => find f b end.
Proof.
  induction a as [| x a IH]; simpl; [reflexivity |].
  destruct (f x); auto.
Qed.

Lemma find_last_snoc (k : string) (b : list Place) (p : Place) :
  find_last k (b ++ [p]) = if String.eqb (id p) k then Some p else find_last k b.
Proof. unfold find_last. now rewrite rev_app_distr. Qed.

Lemma find_last_app (k : string) (a b : list Place) :
  find_last k (a ++ b)
  = match find_last k b with Some p => Some p | None => find_last k a end.
Proof. unfold find_last. now rewrite rev_app_distr, find_app_first. Qed.

Lemma find_last_some (k : string) (b : list Place) (p : Place) :
  find_last k b = Some p -> In p b /\ id p = k.
Proof.
  unfold find_last. intros H. apply find_some in H as [Hin He].
  apply in_rev in Hin. apply String.eqb_eq in He. auto.
Qed.

Lemma find_last_none (k : string) (b : list Place) :
  find_last k b = None -> ~ In k (map id b).
Proof.
  unfold find_last. intros H Hin. apply in_map_iff in Hin as (p & Hp & Hin).
  apply in_rev in Hin. apply (find_none _ _ H) in Hin.
  apply String.eqb_neq in Hin. auto.
Qed.

Lemma get_merge (k : string) (b : list Place) :
  forall m,
    JsMap.get k (merge m b)
    = match find_last k b with Some p => Some p | None => JsMap.get k m end.
Proof.
  induction b as [| p b IH] using rev_ind; intros m; [reflexivity |].
  rewrite merge_snoc, find_last_snoc.
  destruct (String.eqb (id p) k) eqn:E.
  - apply String.eqb_eq in E. subst k. apply get_set_same.
  - apply String.eqb_neq in E. rewrite get_set_other by exact E. apply IH.
Qed.

Lemma in_keys_merge (k : string) (b : list Place) :
  forall m,
    In k (JsMap.keys (merge m b)) <-> In k (JsMap.keys m) \/ In k (map id b).
Proof.
  induction b as [| p b IH] using rev_ind; intros m.
  - simpl. tauto.
  - rewrite merge_snoc, in_keys_set, IH, map_app, in_app_iff. simpl.
    split; intros H; intuition auto.
Qed.

Lemma NoDup_keys_merge (b : list Place) :
  forall m, NoDup (JsMap.keys m) -> NoDup (JsMap.keys (merge m b)).
Proof.
  induction b as [| p b IH]; intros m H; [exact H |].
  apply (IH (JsMap.set (id p) p m)). now apply NoDup_keys_set.
Qed.

Lemma keyed_set (p : Place) (m : JsMap.t Place) :
  keyed_by_id m -> keyed_by_id (JsMap.set (id p) p m).
Proof.
  unfold keyed_by_id. induction m as [| [k v] m IH]; intros H; simpl.
  - repeat constructor.
  - inversion H as [| ? ? Hkv Hm]; subst.
    destruct (String.eqb k (id p)) eqn:E.
    + apply String.eqb_eq in E. constructor; [simpl; congruence | exact Hm].
    + constructor; [exact Hkv | now apply IH].
Qed.

Lemma keyed_merge (b : list Place) :
  forall m, keyed_by_id m -> keyed_by_id (merge m b).
Proof.
  induction b as [| p b IH]; intros m H; [exact H |].
  apply (IH (JsMap.set (id p) p m)). now apply keyed_set.
Qed.

Lemma keyed_values (m : JsMap.t Place) :
  keyed_by_id m -> map id (JsMap.values m) = JsMap.keys m.
Proof.
  unfold keyed_by_id, JsMap.values, JsMap.keys.
  induction 1 as [| [k v] m Hkv _ IH]; simpl; [reflexivity |].
  simpl in Hkv. now rewrite Hkv, IH.
Qed.

(** The last record with a given id in a sequence of batches sits in a
    batch after which that id does not come again. *)
Lemma find_last_concat (k : string) (p : Place) (rs : list (list Place)) :
  find_last k (List.concat rs) = Some p ->
  exists before r after,
    rs = before ++ r :: after /\ find_last k r = Some p
    /\ Forall (fun r' => ~ In k (map id r')) after.
Proof.
  induction rs as [| r rs IH] using rev_ind; [discriminate |].
  rewrite concat_app. simpl. rewrite app_nil_r, find_last_app.
  destruct (find_last k r) as [q |] eqn:E.
  - intros [= ->]. exists rs, r, []. repeat split; auto.
  - intros H. destruct (IH H) as (before & r0 & after & -> & Hr0 & Hafter).
    exists before, r0, (after ++ [r]). rewrite <- app_assoc. repeat split; auto.
    apply Forall_app. split; [exact Hafter |].
    constructor; [now apply find_last_none | constructor].
Qed.

(* ------------------------------------------------------------------ *)
(** ** Traces *)

Ltac trace_app :=
  let a := fresh "a" in
  let e := fresh "e" in
  let IH := fresh "IH" in
  intros a; induction a as [| e a IH]; intros; simpl;
  [ reflexivity
  | destruct e; simpl; rewrite ?IH; try reflexivity;
    match goal with
    | |- context [match ?x with inl _ => _ | inr _ => _ end] =>
        destruct x; simpl; rewrite ?IH; reflexivity
    end ].

Lemma searched_points_app :
  forall a b, searched_points (a ++ b) = searched_points a ++ searched_points b.
Proof. trace_app. Qed.

Lemma answers_in_app :
  forall a b, answers_in (a ++ b) = answers_in a ++ answers_in b.
Proof. trace_app. Qed.

Lemma failed_searches_app :
  forall a b, failed_searches (a ++ b) = failed_searches a ++ failed_searches b.
Proof. trace_app. Qed.

Lemma write_calls_app :
  forall a b, write_calls (a ++ b) = write_calls a ++ write_calls b.
Proof. trace_app. Qed.

Lemma geocode_calls_app :
  forall a b, geocode_calls (a ++ b) = geocode_calls a ++ geocode_calls b.
Proof. trace_app. Qed.

Lemma responses_in_app (a b : Trace) :
  responses_in (a ++ b) = responses_in a ++ responses_in b.
Proof. unfold responses_in. now rewrite answers_in_app, map_app. Qed.

(* ------------------------------------------------------------------ *)
(** ** The search loop *)

Section LoopFacts.

Variable env : Env.
Variable API_KEY : string.

Lemma searchNearby_eq (lat_ lng_ : number) (types : list string) (t : Trace) :
  searchNearby env API_KEY lat_ lng_ types t
  = let c := mkLatLng lat_ lng_ in
    let answer := places_answer env t c types in
    (match answer with
     | inl e => Thrown e
     | inr json => Returned (places_or_empty json)
     end,
     t ++ [PlacesCall c SEARCH_RADIUS types API_KEY answer]).
Proof.
  unfold searchNearby, bind, history, emit, lift_sum, throw, ret. simpl.
  destruct (places_answer env t (mkLatLng lat_ lng_) types); reflexivity.
Qed.

Lemma search_loop_cons (types : list string) (p : LatLng) (rest : list LatLng)
    (unique : JsMap.t Place) (t : Trace) :
  search_loop env API_KEY types (p :: rest) unique t
  = let answer := places_answer env t p types in
    let t1 := t ++ [PlacesCall p SEARCH_RADIUS types API_KEY answer] in
    match answer with
    | inl e => (Thrown e, t1)
    | inr json =>
        search_loop env API_KEY types rest
          (merge unique (places_or_empty json)) (t1 ++ [Sleep (of_Z 300)])
    end.
Proof.
  cbn [search_loop]. unfold bind at 1. rewrite searchNearby_eq.
  destruct p as [la lo]. cbn [lat lng]. cbv zeta.
  destruct (places_answer env t (mkLatLng la lo) types); reflexivity.
Qed.

(** What one run of the loop leaves behind. *)
Lemma search_loop_spec (types : list string) (grid : list LatLng) :
  forall unique t,
  exists ev,
    snd (search_loop env API_KEY types grid unique t) = t ++ ev
    /\ write_calls ev = [] /\ geocode_calls ev = []
    /\ match fst (search_loop env API_KEY types grid unique t) with
       | Returned unique' =>
           map fst (answers_in ev) = grid
           /\ searched_points ev = grid
           /\ failed_searches ev = []
           /\ unique' = fold_left merge (responses_in ev) unique
       | Thrown e =>
           exists done p rest ev0,
             grid = done ++ p :: rest
             /\ ev = ev0 ++ [PlacesCall p SEARCH_RADIUS types API_KEY (inl e)]
             /\ searched_points ev0 = done
             /\ map fst (answers_in ev0) = done
             /\ failed_searches ev0 = []
       | OutOfFuel => False
       end.
Proof.
  induction grid as [| p grid IH]; intros unique t.
  - exists []. simpl. rewrite app_nil_r. repeat split.
  - rewrite search_loop_cons. cbv zeta.
    destruct (places_answer env t p types) as [e | json] eqn:Ha.
    + exists [PlacesCall p SEARCH_RADIUS types API_KEY (inl e)].
      simpl. repeat split.
      exists [], p, grid, []. repeat split.
    + set (call := PlacesCall p SEARCH_RADIUS types API_KEY (inr json)).
      set (pause := Sleep (of_Z 300)).
      destruct (IH (merge unique (places_or_empty json))
                   ((t ++ [call]) ++ [pause]))
        as (ev & Hev & Hw & Hg & Hcase).
      exists (call :: pause :: ev). rewrite Hev.
      split; [now rewrite <- !app_assoc |].
      split; [exact Hw |]. split; [exact Hg |].
      destruct (fst (search_loop env API_KEY types grid
                       (merge unique (places_or_empty json))
                       ((t ++ [call]) ++ [pause]))) as [u' | e |].
      * destruct Hcase as (H1 & H2 & H3 & H4).
        subst call pause. simpl. repeat split; try congruence. exact H4.
      * destruct Hcase as (done & q & rest & ev0 & -> & -> & H1 & H2 & H3).
        exists (p :: done), q, rest, (call :: pause :: ev0).
        subst call pause. simpl. repeat split; try congruence.
      * exact Hcase.
Qed.

End LoopFacts.

(** C2. When the loop over the grid has come to its end, every grid point
    has been searched once, in grid order, and the map is the result of
    merging the answers in that order. Its keys are pairwise distinct and
    are exactly the ids that occur in some answer, so the exported list has
    one record per id; and the record kept for an id is the last record
    with that id in the answer of the last grid point whose answer holds
    that id. *)
Theorem search_loop_last_wins (env : Env) (API_KEY : string)
    (types : list string) (grid : list LatLng) (t t' : Trace)
    (unique : JsMap.t Place) :
  search_loop env API_KEY types grid JsMap.empty t = (Returned unique, t') ->
  exists ev,
    t' = t ++ ev
    /\ map fst (answers_in ev) = grid
    /\ unique = fold_left merge (responses_in ev) JsMap.empty
    /\ NoDup (JsMap.keys unique)
    /\ NoDup (map id (JsMap.values unique))
    /\ (forall k, In k (map id (JsMap.values unique))
                  <-> exists r, In r (responses_in ev) /\ In k (map id r))
    /\ (forall k p, JsMap.get k unique = Some p <->
          exists before c r after,
            answers_in ev = before ++ (c, r) :: after
            /\ find_last k r = Some p
            /\ Forall (fun a => ~ In k (map id (snd a))) after).
Proof.
  intros Hrun.
  destruct (search_loop_spec env API_KEY types grid JsMap.empty t)
    as (ev & Hev & _ & _ & Hcase).
  rewrite Hrun in Hev, Hcase. simpl in Hev, Hcase.
  destruct Hcase as (Hgrid & _ & _ & Hu).
  exists ev. split; [exact Hev |]. split; [exact Hgrid |]. split; [exact Hu |].
  assert (keyed_by_id unique) as Hkeyed.
  { rewrite Hu, merge_concat. apply keyed_merge. constructor. }
  assert (NoDup (JsMap.keys unique)) as Hnd.
  { rewrite Hu, merge_concat. apply NoDup_keys_merge. constructor. }
  split; [exact Hnd |]. rewrite (keyed_values Hkeyed). split; [exact Hnd |].
  split.
  - intros k. rewrite Hu, merge_concat, in_keys_merge. simpl.
    rewrite concat_map, in_concat. split.
    + intros [[] | (l & Hl & Hk)].
      apply in_map_iff in Hl as (r & <- & Hr). eauto.
    + intros (r & Hr & Hk). right. exists (map id r). split; [| exact Hk].
      now apply in_map.
  - intros k p. rewrite Hu, merge_concat, get_merge. simpl. split.
    + intros H.
      destruct (find_last k (List.concat (responses_in ev))) as [q |] eqn:E;
        [| discriminate].
      injection H as ->.
      apply find_last_concat in E as (before & r & after & Hsplit & Hr & Hafter).
      unfold responses_in in Hsplit.
      apply map_eq_app in Hsplit as (b1 & b2 & Hb & Hb1 & Hb2).
      destruct b2 as [| [c r'] a2]; [discriminate |].
      simpl in Hb2. injection Hb2 as Hr' Ha2. subst r' after before.
      exists b1, c, r, a2. split; [exact Hb |]. split; [exact Hr |].
      rewrite Forall_map in Hafter. exact Hafter.
    + intros (before & c & r & after & Hsplit & Hr & Hafter).
      unfold responses_in. rewrite Hsplit, map_app, concat_app. simpl.
      rewrite !find_last_app.
      assert (find_last k (List.concat (map snd after)) = None) as ->.
      { clear Hsplit. induction after as [| a after IH]; [reflexivity |].
        inversion Hafter as [| ? ? Ha Hrest]; subst. simpl.
        rewrite find_last_app, (IH Hrest).
        destruct (find_last k (snd a)) as [q |] eqn:E; [| reflexivity].
        apply find_last_some in E as [Hq <-]. exfalso. apply Ha.
        now apply in_map. }
      now rewrite Hr.
Qed.

(* ------------------------------------------------------------------ *)
(** ** CSV *)

Lemma list_ascii_app (a b : string) :
  list_ascii_of_string (a ++ b) = list_ascii_of_string a ++ list_ascii_of_string b.
Proof. induction a as [| c a IH]; simpl; [reflexivity | now rewrite IH]. Qed.

Lemma replace_dquote (s : string) :
  list_ascii_of_string
    (JsString.replace_char JsString.dquote
       (String JsString.dquote (String JsString.dquote EmptyString)) s)
  = flat_map (fun a => if Ascii.eqb a JsString.dquote
                       then [JsString.dquote; JsString.dquote]
                       else [a]) (list_ascii_of_string s).
Proof.
  induction s as [| a s IH]; [reflexivity |].
  cbn [JsString.replace_char list_ascii_of_string flat_map].
  destruct (Ascii.eqb a JsString.dquote); simpl; now rewrite IH.
Qed.

Lemma escape_quoted (env : Env) (value : CsvValue) :
  escape env value
  = string_of_list_ascii
      (quoted (list_ascii_of_string
                 (match value with
                  | Some v => String_ env v
                  | None => EmptyString
                  end))).
Proof.
  rewrite <- (string_of_list_ascii_of_string (escape env value)). f_equal.
  unfold escape, quoted.
  change (String JsString.dquote EmptyString
          ++ String JsString.dquote EmptyString)%string
    with (String JsString.dquote (String JsString.dquote EmptyString)).
  cbn [append list_ascii_of_string]. f_equal.
  rewrite list_ascii_app, replace_dquote.
  destruct value as [v |]; reflexivity.
Qed.

Lemma row_fields_cells (env : Env) (p : Place) :
  row_fields env p = map cell (columns env p).
Proof.
  unfold row_fields, columns, cell. cbn [map]. rewrite !escape_quoted.
  destruct (displayName p), (rating p), (userRatingCount p), (websiteUri p),
    (formattedAddress p), (location p); reflexivity.
Qed.

Lemma append_empty_r (a : string) : (a ++ EmptyString)%string = a.
Proof. induction a as [| c a IH]; simpl; [reflexivity | now rewrite IH]. Qed.

Lemma append_assoc (a b c : string) :
  ((a ++ b) ++ c)%string = (a ++ (b ++ c))%string.
Proof. induction a as [| x a IH]; simpl; [reflexivity | now rewrite IH]. Qed.

Lemma join_cons (sep : string) (l : list string) :
  forall x,
    JsString.join sep (x :: l)
    = (x ++ String.concat EmptyString (map (fun y => sep ++ y) l))%string.
Proof.
  unfold JsString.join.
  induction l as [| y l IH]; intros x.
  - simpl. now rewrite append_empty_r.
  - change (String.concat sep (x :: y :: l))
      with (x ++ sep ++ String.concat sep (y :: l))%string.
    rewrite IH. f_equal. cbn [map].
    destruct l as [| z l].
    + simpl. now rewrite append_empty_r.
    + change (String.concat EmptyString
                ((sep ++ y)%string :: map (fun y0 => (sep ++ y0)%string) (z :: l)))
        with ((sep ++ y) ++ EmptyString
              ++ String.concat EmptyString
                   (map (fun y0 => (sep ++ y0)%string) (z :: l)))%string.
      cbn [append]. now rewrite append_assoc.
Qed.

Lemma list_ascii_inj (a b : string) :
  list_ascii_of_string a = list_ascii_of_string b -> a = b.
Proof.
  intros H. rewrite <- (string_of_list_ascii_of_string a),
                    <- (string_of_list_ascii_of_string b).
  now rewrite H.
Qed.

Lemma csv_double_list (s : string) :
  list_ascii_of_string (csv_double s)
  = flat_map (fun a => if Ascii.eqb a "034" then ["034"; "034"] else [a])%char
             (list_ascii_of_string s).
Proof.
  induction s as [| a s IH]; [reflexivity |].
  cbn [csv_double list_ascii_of_string flat_map].
  destruct (Ascii.eqb a "034"); simpl; now rewrite IH.
Qed.

Lemma csv_cell_list (c : option string) :
  list_ascii_of_string (csv_cell c)
  = ("034" :: flat_map (fun a => if Ascii.eqb a "034" then ["034"; "034"] else [a])
                       (list_ascii_of_string
                          (match c with Some s => s | None => EmptyString end))
            ++ ["034"])%char.
Proof.
  unfold csv_cell. cbn [list_ascii_of_string]. f_equal.
  now rewrite list_ascii_app, csv_double_list.
Qed.

Lemma cell_csv_cell (c : option string) : cell c = csv_cell c.
Proof.
  apply list_ascii_inj. rewrite csv_cell_list. unfold cell.
  rewrite list_ascii_of_string_of_list_ascii.
  destruct c; reflexivity.
Qed.

(** C6. The exported text is the header line
    [id,name,rating,userRatingCount,websiteUri,formattedAddress,latitude,longitude]
    followed, for every record in the order of the list, by a line break
    (character 10) and the line of the record. The line of a record has
    the eight cells of the record in the order of the header, separated by
    commas. A cell is a double quote (character 34), the text of the field
    with every double quote written twice, and a double quote; a field that
    the record lacks gives the cell made of two double quotes. *)
Theorem toCsv_table (env : Env) (places : list Place) :
  toCsv env places
  = ("id,name,rating,userRatingCount,websiteUri,formattedAddress,latitude,longitude"
     ++ String.concat EmptyString
          (map (fun p => String "010"
                           (String.concat "," (map csv_cell (columns env p))))
               places))%string
  /\ (forall p, List.length (columns env p) = 8%nat)
  /\ (forall s,
        list_ascii_of_string (csv_cell (Some s))
        = ("034"
           :: flat_map (fun a => if Ascii.eqb a "034" then ["034"; "034"] else [a])
                       (list_ascii_of_string s)
           ++ ["034"])%char)
  /\ csv_cell None = String "034" (String "034" EmptyString).
Proof.
  split; [| split; [reflexivity | split; [| reflexivity]]].
  - unfold toCsv. rewrite join_cons, map_map. f_equal.
    f_equal. apply map_ext. intros p.
    rewrite row_fields_cells, (map_ext cell csv_cell cell_csv_cell).
    reflexivity.
  - intros s. apply (csv_cell_list (Some s)).
Qed.

(** The name [He said "hi"] is exported with its two quotes doubled. *)
Example cell_with_quotes :
  let q := String JsString.dquote EmptyString in
  cell (Some ("He said " ++ q ++ "hi" ++ q))%string
  = (q ++ "He said " ++ q ++ q ++ "hi" ++ q ++ q ++ q)%string.
Proof. reflexivity. Qed.

(* ------------------------------------------------------------------ *)
(** ** The orchestrator *)

Section RunFacts.

Variable env : Env.
Variable API_KEY : string.

Lemma geocodeCity_trace (city : string) (t : Trace) :
  exists answer,
    snd (geocodeCity env API_KEY city t) = t ++ [GeocodeCall city API_KEY answer].
Proof.
  exists (geocode_answer env t city).
  unfold geocodeCity, bind, history, emit, lift_sum, throw, ret. simpl.
  destruct (geocode_answer env t city) as [e | json]; [reflexivity |].
  destruct (results json); reflexivity.
Qed.

(** [run], with the sequencing written out. *)
Lemma run_eq (fuel : nat) (city : string) (types : list string)
    (testLimit : option number) (t : Trace) :
  run env API_KEY fuel city types testLimit t
  = let t0 := (t ++ [ConsoleLog (LogGeocoding city)])
                ++ [ConsoleLog (LogTypes types)] in
    match geocodeCity env API_KEY city t0 with
    | (Returned b, t1) =>
        match generateGrid fuel (southwest b) (northeast b) with
        | None => (OutOfFuel, t1)
        | Some fullGrid =>
            let grid := select_grid testLimit fullGrid in
            let t2 :=
              t1 ++ [ConsoleLog
                       (if limit_given testLimit
                        then LogTestMode (List.length grid) (List.length fullGrid)
                        else LogGridPoints (List.length grid))] in
            match search_loop env API_KEY types grid JsMap.empty t2 with
            | (Returned unique, t3) =>
                let results := JsMap.values unique in
                let t4 := t3 ++ [ConsoleLog (LogFound (List.length results))] in
                let csv := toCsv env results in
                let fileName := fileName_of city in
                let failure := write_failure env t4 fileName csv in
                let t5 := t4 ++ [WriteFile fileName csv failure] in
                match failure with
                | Some e => (Thrown e, t5)
                | None => (Returned tt, t5 ++ [ConsoleLog (LogExported fileName)])
                end
            | (Thrown e, t3) => (Thrown e, t3)
            | (OutOfFuel, t3) => (OutOfFuel, t3)
            end
        end
    | (Thrown e, t1) => (Thrown e, t1)
    | (OutOfFuel, t1) => (OutOfFuel, t1)
    end.
Proof.
  cbv [run bind console_log emit lift_fuel writeFileSync history throw ret].
  destruct (geocodeCity env API_KEY city _) as [[b | e |] t1]; try reflexivity.
  destruct (generateGrid fuel (southwest b) (northeast b)) as [fullGrid |];
    [| reflexivity].
  destruct (limit_given testLimit);
    destruct (search_loop env API_KEY types _ JsMap.empty _) as [[u | e |] t3];
    try reflexivity;
    destruct (write_failure env _ _ _); reflexivity.
Qed.

(** What one run leaves behind, as far as the searches go. *)
Lemma run_events (fuel : nat) (city : string) (types : list string)
    (testLimit : option number) (t : Trace) :
  exists ev,
    snd (run env API_KEY fuel city types testLimit t) = t ++ ev
    /\ (forall e, In e (failed_searches ev) ->
          fst (run env API_KEY fuel city types testLimit t) = Thrown e
          /\ write_calls ev = []
          /\ exists ev0 c,
               ev = ev0 ++ [PlacesCall c SEARCH_RADIUS types API_KEY (inl e)]
               /\ failed_searches ev0 = [])
    /\ (forall b t1 fullGrid,
          geocodeCity env API_KEY city
            ((t ++ [ConsoleLog (LogGeocoding city)]) ++ [ConsoleLog (LogTypes types)])
          = (Returned b, t1) ->
          generateGrid fuel (southwest b) (northeast b) = Some fullGrid ->
          (exists rest, select_grid testLimit fullGrid = searched_points ev ++ rest)
          /\ (failed_searches ev = [] ->
              searched_points ev = select_grid testLimit fullGrid)).
Proof.
  rewrite run_eq. cbv zeta.
  set (l1 := ConsoleLog (LogGeocoding city)).
  set (l2 := ConsoleLog (LogTypes types)).
  destruct (geocodeCity_trace city ((t ++ [l1]) ++ [l2])) as [answer Ht1].
  destruct (geocodeCity env API_KEY city ((t ++ [l1]) ++ [l2])) as [o1 t1].
  simpl in Ht1. subst t1. set (g := GeocodeCall city API_KEY answer).
  assert (forall A (o : outcome A),
             exists ev, snd (o, ((t ++ [l1]) ++ [l2]) ++ [g]) = t ++ ev
                        /\ failed_searches ev = []) as Hearly.
  { intros A o. exists [l1; l2; g]. simpl. now rewrite <- !app_assoc. }
  destruct o1 as [b | e1 |].
  2:{ destruct (Hearly unit (Thrown e1)) as (ev & Hev & Hf).
      exists ev. split; [exact Hev |]. rewrite Hf. split.
      - intros e [].
      - intros b t1 fullGrid [=]. }
  2:{ destruct (Hearly unit OutOfFuel) as (ev & Hev & Hf).
      exists ev. split; [exact Hev |]. rewrite Hf. split.
      - intros e [].
      - intros b t1 fullGrid [=]. }
  destruct (generateGrid fuel (southwest b) (northeast b)) as [fullGrid |] eqn:Hgrid.
  2:{ destruct (Hearly unit OutOfFuel) as (ev & Hev & Hf).
      exists ev. split; [exact Hev |]. rewrite Hf. split.
      - intros e [].
      - intros b' t1 fullGrid [= <- _]. rewrite Hgrid. discriminate. }
  clear Hearly.
  set (grid := select_grid testLimit fullGrid).
  set (l3 := ConsoleLog _).
  destruct (search_loop_spec env API_KEY types grid JsMap.empty
              ((((t ++ [l1]) ++ [l2]) ++ [g]) ++ [l3]))
    as (ev & Hev & Hw & _ & Hcase).
  destruct (search_loop env API_KEY types grid JsMap.empty
              ((((t ++ [l1]) ++ [l2]) ++ [g]) ++ [l3])) as [o3 t3].
  simpl in Hev, Hcase. subst t3.
  destruct o3 as [unique | e |]; [| | contradiction].
  - destruct Hcase as (_ & Hs & Hf & _).
    set (l4 := ConsoleLog _).
    set (csv := toCsv env (JsMap.values unique)).
    assert (forall tail, failed_searches tail = [] -> searched_points tail = [] ->
              failed_searches ([l1; l2; g; l3] ++ ev ++ tail) = []
              /\ searched_points ([l1; l2; g; l3] ++ ev ++ tail) = grid) as Hsum.
    { intros tail H1 H2.
      rewrite !failed_searches_app, !searched_points_app, Hf, Hs, H1, H2.
      simpl. now rewrite app_nil_r. }
    assert (forall tail,
              failed_searches ([l1; l2; g; l3] ++ ev ++ tail) = [] ->
              searched_points ([l1; l2; g; l3] ++ ev ++ tail) = grid ->
              forall o : outcome unit,
              (forall e, In e (failed_searches ([l1; l2; g; l3] ++ ev ++ tail)) ->
                 o = Thrown e
                 /\ write_calls ([l1; l2; g; l3] ++ ev ++ tail) = []
                 /\ exists ev0 c,
                      [l1; l2; g; l3] ++ ev ++ tail
                      = ev0 ++ [PlacesCall c SEARCH_RADIUS types API_KEY (inl e)]
                      /\ failed_searches ev0 = [])
              /\ (forall b' t1 fullGrid',
                    (Returned b, ((t ++ [l1]) ++ [l2]) ++ [g]) = (Returned b', t1) ->
                    generateGrid fuel (southwest b') (northeast b') = Some fullGrid' ->
                    (exists rest,
                        select_grid testLimit fullGrid'
                        = searched_points ([l1; l2; g; l3] ++ ev ++ tail) ++ rest)
                    /\ (failed_searches ([l1; l2; g; l3] ++ ev ++ tail) = [] ->
                        searched_points ([l1; l2; g; l3] ++ ev ++ tail)
                        = select_grid testLimit fullGrid'))) as Hdone.
    { intros tail Hf' Hs' o. rewrite Hf', Hs'. split; [intros e [] |].
      intros b' t1 fullGrid' [= <- _]. rewrite Hgrid. intros [= <-].
      split; [exists []; now rewrite app_nil_r | reflexivity]. }
    destruct (write_failure env _ _ _) as [j |].
    + exists ([l1; l2; g; l3] ++ ev
              ++ [l4; WriteFile (fileName_of city) csv (Some j)]).
      split; [simpl; rewrite <- !app_assoc; reflexivity |].
      apply Hdone; apply Hsum; reflexivity.
    + exists ([l1; l2; g; l3] ++ ev
              ++ [l4; WriteFile (fileName_of city) csv None;
                  ConsoleLog (LogExported (fileName_of city))]).
      split; [simpl; rewrite <- !app_assoc; reflexivity |].
      apply Hdone; apply Hsum; reflexivity.
  - destruct Hcase as (done & p & rest & ev0 & Hsplit & -> & Hs & _ & Hf).
    exists ([l1; l2; g; l3] ++ ev0
            ++ [PlacesCall p SEARCH_RADIUS types API_KEY (inl e)]).
    split; [simpl; now rewrite <- !app_assoc |].
    rewrite !failed_searches_app, !searched_points_app, Hf, Hs. simpl.
    rewrite write_calls_app in Hw. split.
    + intros e' [<- | []]. split; [reflexivity |]. split.
      * rewrite write_calls_app. exact Hw.
      * exists (l1 :: l2 :: g :: l3 :: ev0), p. split; [reflexivity |].
        simpl. exact Hf.
    + intros b' t1 fullGrid' [= <- _]. rewrite Hgrid. intros [= <-].
      split; [| discriminate].
      exists rest. fold grid. rewrite Hsplit, <- app_assoc. reflexivity.
Qed.

End RunFacts.

Lemma main_search_failure (env : Env) (GOOGLE_API_KEY : option string)
    (argv : list string) (fuel : nat) (e : JsError) :
  In e (failed_searches (snd (main env GOOGLE_API_KEY argv fuel))) ->
  fst (main env GOOGLE_API_KEY argv fuel) = Exit 1
  /\ write_calls (snd (main env GOOGLE_API_KEY argv fuel)) = []
  /\ exists t0 c types key,
       snd (main env GOOGLE_API_KEY argv fuel)
       = t0 ++ [PlacesCall c SEARCH_RADIUS types key (inl e);
                ConsoleError (ErrValue e)].
Proof.
  unfold main.
  destruct GOOGLE_API_KEY as [[| a k] |]; try (intros []).
  set (o := parse_args env (skipn 2 argv)).
  destruct (negb (JsString.truthy (JsString.join " " (cityParts o))));
    [intros [] |].
  destruct (run_events env (String a k) fuel (JsString.join " " (cityParts o))
              (types o) (testLimit o) []) as (ev & Hev & Hfail & _).
  destruct (run env (String a k) fuel (JsString.join " " (cityParts o))
              (types o) (testLimit o) []) as [r t'].
  simpl in Hev, Hfail. subst t'.
  assert (forall l, failed_searches (ev ++ [ConsoleError l]) = failed_searches ev)
    as Hsame.
  { intros l. rewrite failed_searches_app. simpl. apply app_nil_r. }
  destruct r as [u | e' |]; cbn [fst snd]; try rewrite Hsame; intros Hin;
    destruct (Hfail e Hin) as (Hthrown & Hw & ev0 & c & -> & _);
    try discriminate.
  injection Hthrown as ->. split; [reflexivity |]. split.
  - rewrite write_calls_app, Hw. reflexivity.
  - exists ev0, c, (types o), (String a k). now rewrite <- app_assoc.
Qed.

(** C4, as the source has it. What happens when a search goes wrong
    depends on how it goes wrong. A search call that is rejected (the
    request fails, or the body is not JSON) is not caught: if a search
    call of a run is rejected with [e], then [run] ends with [e] thrown,
    the rejected call is the last thing the run does, so no grid point
    after it is searched, it is the only rejected call, and
    [writeFileSync] is not called: nothing is exported; the script prints
    [e] and ends with exit code 1. A search call that is answered with a
    body without [places], as a provider does when it reports an error in
    the body, counts as zero records: the loop waits and goes on with the
    next grid point and the same map. *)
Theorem search_failure_ends_run (env : Env) :
  (forall API_KEY fuel city types testLimit t,
     exists ev,
       snd (run env API_KEY fuel city types testLimit t) = t ++ ev
       /\ forall e, In e (failed_searches ev) ->
            fst (run env API_KEY fuel city types testLimit t) = Thrown e
            /\ write_calls ev = []
            /\ exists ev0 c,
                 ev = ev0 ++ [PlacesCall c SEARCH_RADIUS types API_KEY (inl e)]
                 /\ failed_searches ev0 = [])
  /\ (forall GOOGLE_API_KEY argv fuel e,
        In e (failed_searches (snd (main env GOOGLE_API_KEY argv fuel))) ->
        fst (main env GOOGLE_API_KEY argv fuel) = Exit 1
        /\ write_calls (snd (main env GOOGLE_API_KEY argv fuel)) = []
        /\ exists t0 c types key,
             snd (main env GOOGLE_API_KEY argv fuel)
             = t0 ++ [PlacesCall c SEARCH_RADIUS types key (inl e);
                      ConsoleError (ErrValue e)])
  /\ (forall API_KEY types p rest unique t json,
        places_answer env t p types = inr json ->
        places json = None ->
        search_loop env API_KEY types (p :: rest) unique t
        = search_loop env API_KEY types rest unique
            ((t ++ [PlacesCall p SEARCH_RADIUS types API_KEY (inr json)])
             ++ [Sleep (of_Z 300)])).
Proof.
  split; [| split].
  - intros API_KEY fuel city types testLimit t.
    destruct (run_events env API_KEY fuel city types testLimit t)
      as (ev & Hev & Hfail & _).
    exists ev. split; assumption.
  - intros. now apply main_search_failure.
  - intros API_KEY types p rest unique t json Hanswer Hnone.
    rewrite search_loop_cons. cbv zeta. rewrite Hanswer.
    unfold places_or_empty. now rewrite Hnone.
Qed.

(** C4, as stated, fails in the world where the second search call is
    rejected: the run over the four grid points ends with the error after
    the second point, the two records of the first answer are not
    exported, and the last two points are never searched. *)
Lemma outage_aborts_run :
  let r := run Sample.outage Sample.key 5 Sample.town Sample.kinds None [] in
  generateGrid 5 Sample.sw Sample.ne = Some Sample.grid
  /\ fst r = Thrown (Error "unavailable")
  /\ searched_points (snd r) = firstn 2 Sample.grid
  /\ responses_in (snd r) = [[Sample.place "P1" 0; Sample.place "A" 3]]
  /\ write_calls (snd r) = [].
Proof. vm_compute. repeat split. Qed.

(* ------------------------------------------------------------------ *)
(** ** Test mode *)

Lemma firstn_min_length {A} (n : nat) (l : list A) :
  firstn (Nat.min n (List.length l)) l = firstn n l.
Proof. now rewrite <- firstn_firstn, firstn_all. Qed.

Lemma Qtrunc_floor (q : Q) : 0 <= q -> Qtrunc q = Qfloor q.
Proof.
  destruct q as [n d]. intros H. unfold Qle in H. simpl in H.
  unfold Qtrunc, Qfloor. cbn [Qnum Qden].
  apply Z.quot_div_nonneg; lia.
Qed.

(** A limit above zero cuts the grid after as many points as the limit,
    rounded down, says. *)
Lemma select_grid_limit (q : Q) (fullGrid : list LatLng) :
  0 < q ->
  select_grid (Some (Fin q)) fullGrid = firstn (Z.to_nat (Qfloor q)) fullGrid.
Proof.
  intros Hq. unfold select_grid, JsNumber.truthy, gtb, of_Z.
  assert (Qeq_bool q 0 = false) as ->.
  { destruct (Qeq_bool q 0) eqn:E; [| reflexivity].
    apply Qeq_bool_iff in E. lra. }
  change (inject_Z 0) with 0. rewrite (Qle_bool_false Hq). cbn [negb andb].
  unfold slice0. rewrite Qtrunc_floor by lra.
  assert (0 <= Qfloor q)%Z as Hnn.
  { rewrite <- (Qfloor_Z 0). apply Qfloor_resp_le.
    change (inject_Z 0) with 0. lra. }
  destruct (Z.ltb_spec (Qfloor q) 0) as [Hlt | _]; [lia |].
  rewrite Z2Nat.inj_min, Nat2Z.id. apply firstn_min_length.
Qed.

(** A limit that is not above zero leaves the grid as it is. *)
Lemma select_grid_ignored (n : number) (fullGrid : list LatLng) :
  gtb n (of_Z 0) = false -> select_grid (Some n) fullGrid = fullGrid.
Proof.
  intros H. unfold select_grid. rewrite H.
  now destruct (JsNumber.truthy n).
Qed.

(** C5. With the limit set to the positive whole number [N], and the town
    geocoded and its grid generated, the centres of the searches of the run
    are the first [N] grid points in the order of the generator, or the
    whole grid if it is shorter; a run that is cut short by a failing
    search has searched a front part of them. No other point is searched. *)
Theorem run_test_limit (env : Env) (API_KEY : string) (fuel : nat)
    (city : string) (types : list string) (q : Q) (N : positive) (t : Trace)
    (b : Bounds) (t1 : Trace) (fullGrid : list LatLng) :
  q == inject_Z (Z.pos N) ->
  geocodeCity env API_KEY city
    ((t ++ [ConsoleLog (LogGeocoding city)]) ++ [ConsoleLog (LogTypes types)])
  = (Returned b, t1) ->
  generateGrid fuel (southwest b) (northeast b) = Some fullGrid ->
  exists ev,
    snd (run env API_KEY fuel city types (Some (Fin q)) t) = t ++ ev
    /\ (exists rest, firstn (Pos.to_nat N) fullGrid = searched_points ev ++ rest)
    /\ (failed_searches ev = [] ->
        searched_points ev = firstn (Pos.to_nat N) fullGrid).
Proof.
  intros Hq Hgeo Hgrid.
  destruct (run_events env API_KEY fuel city types (Some (Fin q)) t)
    as (ev & Hev & _ & Hsearch).
  exists ev. split; [exact Hev |].
  specialize (Hsearch b t1 fullGrid Hgeo Hgrid).
  rewrite select_grid_limit in Hsearch by (rewrite Hq; reflexivity).
  rewrite (Qfloor_comp _ _ Hq), Qfloor_Z in Hsearch.
  exact Hsearch.
Qed.

(** C10. With the limit set to a number that is not above zero (zero, a
    negative number, NaN), and the town geocoded and its grid generated,
    the grid is not cut: the centres of the searches of the run are all
    the grid points, in the order of the generator; a run that is cut
    short by a failing search has searched a front part of them. *)
Theorem run_limit_not_positive (env : Env) (API_KEY : string) (fuel : nat)
    (city : string) (types : list string) (n : number) (t : Trace)
    (b : Bounds) (t1 : Trace) (fullGrid : list LatLng) :
  gtb n (of_Z 0) = false ->
  geocodeCity env API_KEY city
    ((t ++ [ConsoleLog (LogGeocoding city)]) ++ [ConsoleLog (LogTypes types)])
  = (Returned b, t1) ->
  generateGrid fuel (southwest b) (northeast b) = Some fullGrid ->
  select_grid (Some n) fullGrid = fullGrid
  /\ exists ev,
       snd (run env API_KEY fuel city types (Some n) t) = t ++ ev
       /\ (exists rest, fullGrid = searched_points ev ++ rest)
       /\ (failed_searches ev = [] -> searched_points ev = fullGrid).
Proof.
  intros Hn Hgeo Hgrid. split; [now apply select_grid_ignored |].
  destruct (run_events env API_KEY fuel city types (Some n) t)
    as (ev & Hev & _ & Hsearch).
  exists ev. split; [exact Hev |].
  specialize (Hsearch b t1 fullGrid Hgeo Hgrid).
  now rewrite select_grid_ignored in Hsearch.
Qed.

(* ------------------------------------------------------------------ *)
(** ** Answers without records *)

(** C9. When the body of the answer has no [places] field, [searchNearby]
    returns the empty list and throws nothing; the loop of [run] then goes
    on to the next grid point with the map as it was. *)
Theorem searchNearby_without_places (env : Env) (API_KEY : string)
    (lat_ lng_ : number) (types : list string) (t : Trace)
    (json : PlacesSearchResponse) :
  places_answer env t (mkLatLng lat_ lng_) types = inr json ->
  places json = None ->
  searchNearby env API_KEY lat_ lng_ types t
  = (Returned [],
     t ++ [PlacesCall (mkLatLng lat_ lng_) SEARCH_RADIUS types API_KEY (inr json)])
  /\ forall rest unique,
       search_loop env API_KEY types (mkLatLng lat_ lng_ :: rest) unique t
       = search_loop env API_KEY types rest unique
           ((t ++ [PlacesCall (mkLatLng lat_ lng_) SEARCH_RADIUS types API_KEY
                     (inr json)])
            ++ [Sleep (of_Z 300)]).
Proof.
  intros Hanswer Hnone. split.
  - rewrite searchNearby_eq. cbv zeta. rewrite Hanswer.
    unfold places_or_empty. now rewrite Hnone.
  - intros rest unique. rewrite search_loop_cons. cbv zeta. rewrite Hanswer.
    unfold places_or_empty. now rewrite Hnone.
Qed.

(* ------------------------------------------------------------------ *)
(** ** The script *)

Lemma cityParts_fold (env : Env) (args : list string) :
  forall o,
    cityParts (fold_left (parse_arg env) args o)
    = cityParts o ++ filter (fun a => negb (is_option a)) args.
Proof.
  induction args as [| a args IH]; intros o; simpl.
  - now rewrite app_nil_r.
  - rewrite IH. unfold parse_arg, is_option.
    destruct (JsString.startsWith a "--test="); simpl; [reflexivity |].
    destruct (JsString.startsWith a "--types="); simpl; [reflexivity |].
    now rewrite <- app_assoc.
Qed.

Lemma cityParts_all_options (env : Env) (args : list string) :
  forallb is_option args = true -> cityParts (parse_args env args) = [].
Proof.
  intros H. unfold parse_args. rewrite cityParts_fold. simpl.
  induction args as [| a args IH]; [reflexivity |].
  simpl in H. apply andb_prop in H as [Ha Hrest].
  simpl. rewrite Ha. simpl. now apply IH.
Qed.

(** C8. When the environment variable with the key is not set, or when no
    argument after the script name is a place name, the process ends with
    exit code 1 before the pipeline starts: the geocoding service is not
    called, no point is searched and [writeFileSync] is not called. *)
Theorem main_startup_failure (env : Env) (GOOGLE_API_KEY : option string)
    (argv : list string) (fuel : nat) :
  GOOGLE_API_KEY = None \/ forallb is_option (skipn 2 argv) = true ->
  fst (main env GOOGLE_API_KEY argv fuel) = Exit 1
  /\ geocode_calls (snd (main env GOOGLE_API_KEY argv fuel)) = []
  /\ searched_points (snd (main env GOOGLE_API_KEY argv fuel)) = []
  /\ write_calls (snd (main env GOOGLE_API_KEY argv fuel)) = [].
Proof.
  intros [-> | Hargs]; [repeat split |].
  unfold main. destruct GOOGLE_API_KEY as [[| c k] |]; try (repeat split).
  all: rewrite (cityParts_all_options env _ Hargs); reflexivity.
Qed.

(* ------------------------------------------------------------------ *)
(** ** The theorems at work in the small world *)


Lemma search_loop_last_wins_witness :
  Sample.searched = (Returned Sample.found_map, snd Sample.searched)
  /\ NoDup (map id (JsMap.values Sample.found_map))
  /\ JsMap.get "P1" Sample.found_map = Some (Sample.place "P1" 3).
Proof.
  assert (Sample.searched = (Returned Sample.found_map, snd Sample.searched))
    as Hrun by (vm_compute; reflexivity).
  split; [exact Hrun |].
  destruct (@search_loop_last_wins Sample.calm Sample.key Sample.kinds
              Sample.grid [] (snd Sample.searched) Sample.found_map Hrun)
    as (ev & _ & _ & _ & _ & Hnd & _).
  split; [exact Hnd | vm_compute; reflexivity].
Defined.


Lemma search_failure_ends_run_witness :
  fst (main Sample.outage (Some Sample.key) ["node"; "main.ts"; "Town"]%string 5)
  = Exit 1
  /\ write_calls
       (snd (main Sample.outage (Some Sample.key)
                  ["node"; "main.ts"; "Town"]%string 5)) = [].
Proof.
  destruct (proj1 (proj2 (search_failure_ends_run Sample.outage))
              (Some Sample.key) ["node"; "main.ts"; "Town"]%string 5%nat
              (Error "unavailable"))
    as (Hexit & Hw & _).
  - vm_compute. left. reflexivity.
  - split; assumption.
Defined.

Lemma run_test_limit_witness :
  searched_points
    (snd (run Sample.calm Sample.key 5 Sample.town Sample.kinds
              (Some (Fin 3)) []))
  = firstn 3 Sample.grid.
Proof.
  destruct (@run_test_limit Sample.calm Sample.key 5 Sample.town Sample.kinds
              3 3%positive [] (mkBounds Sample.sw Sample.ne)
              Sample.geocoded_trace Sample.grid)
    as (ev & Hev & _ & Hall).
  - reflexivity.
  - vm_compute. reflexivity.
  - vm_compute. reflexivity.
  - simpl app in Hev. rewrite Hev. apply Hall.
    rewrite <- Hev. vm_compute. reflexivity.
Defined.

Lemma run_limit_not_positive_witness :
  gtb NaN (of_Z 0) = false
  /\ searched_points
       (snd (run Sample.calm Sample.key 5 Sample.town Sample.kinds (Some NaN) []))
     = Sample.grid.
Proof.
  split; [reflexivity |].
  destruct (@run_limit_not_positive Sample.calm Sample.key 5 Sample.town
              Sample.kinds NaN [] (mkBounds Sample.sw Sample.ne)
              Sample.geocoded_trace Sample.grid)
    as (_ & ev & Hev & _ & Hall).
  - reflexivity.
  - vm_compute. reflexivity.
  - vm_compute. reflexivity.
  - simpl app in Hev. rewrite Hev. apply Hall.
    rewrite <- Hev. vm_compute. reflexivity.
Defined.

Lemma searchNearby_without_places_witness :
  searchNearby Sample.barren Sample.key (Fin 10) (Fin 20) Sample.kinds []
  = (Returned [],
     [PlacesCall (pt 10 20) SEARCH_RADIUS Sample.kinds Sample.key
        (inr (mkPlacesSearchResponse None))]).
Proof.
  apply (@searchNearby_without_places Sample.barren Sample.key (Fin 10) (Fin 20)
           Sample.kinds [] (mkPlacesSearchResponse None)); reflexivity.
Defined.

Lemma main_startup_failure_witness :
  fst (main Sample.calm (Some Sample.key)
            ["node"; "main.ts"; "--test=3"; "--types=gym,spa"]%string 5)
  = Exit 1.
Proof.
  apply (@main_startup_failure Sample.calm (Some Sample.key)
           ["node"; "main.ts"; "--test=3"; "--types=gym,spa"]%string 5).
  right. reflexivity.
Defined.

(* ------------------------------------------------------------------ *)
(** ** Worked examples *)

(** Two records with the same id, merged in this order: the second stays. *)
Example merge_keeps_the_later_record :
  merge JsMap.empty [Sample.place "A" 4; Sample.place "A" 5]
  = [("A"%string, Sample.place "A" 5)].
Proof. reflexivity. Qed.

(** The town of the small world: four grid points, each search finds the
    shared place and one of its own, five records are exported, the shared
    one as the last search saw it. *)
Example calm_run_exports_five_records :
  let r := run Sample.calm Sample.key 5 Sample.town Sample.kinds None [] in
  fst r = Returned tt
  /\ searched_points (snd r) = Sample.grid
  /\ map fst (write_calls (snd r)) = ["places_Town.csv"%string]
  /\ map id (JsMap.values Sample.found_map)
     = ["P1"; "A"; "B"; "C"; "D"]%string
  /\ JsMap.get "P1" Sample.found_map = Some (Sample.place "P1" 3).
Proof. vm_compute. repeat split. Qed.

(** Option values as the loop over the arguments reads them. *)
Example options_as_parsed :
  parse_args Sample.calm ["New"; "--test=3"; "York"; "--types= gym, ,spa"]%string
  = mkOptions (Some (of_Z 3)) ["gym"; "spa"]%string ["New"; "York"]%string
  /\ testLimit (parse_args Sample.calm ["Town"; "--test=many"]%string) = Some NaN
  /\ testLimit (parse_args Sample.calm ["Town"]%string) = None.
Proof. vm_compute. repeat split. Qed.

(** Limits that are not above zero. *)
Example limits_not_above_zero :
  gtb NaN (of_Z 0) = false
  /\ gtb (of_Z 0) (of_Z 0) = false
  /\ gtb (of_Z (-2)) (of_Z 0) = false
  /\ gtb NegInf (of_Z 0) = false.
Proof. repeat split. Qed.

(** A limit between zero and one is above zero and cuts the grid to
    nothing. *)
Example half_point_limit :
  select_grid (Some (Fin (1 # 2))) Sample.grid = [].
Proof. reflexivity. Qed.

(* ================================================================== *)
(** * Further properties *)

(* ------------------------------------------------------------------ *)
(** ** More on the grid *)

Lemma lng_loop_more_fuel (step : number) (ne : LatLng) (lat_ : number) :
  forall fuel fuel' lng_ pts grid,
    (fuel <= fuel')%nat ->
    lng_loop fuel step ne lat_ lng_ pts = Some grid ->
    lng_loop fuel' step ne lat_ lng_ pts = Some grid.
Proof.
  induction fuel as [| fuel IH]; intros fuel' lng_ pts grid Hle H;
    [discriminate |].
  destruct fuel' as [| fuel']; [lia |].
  cbn [lng_loop] in *. destruct (leb lng_ (lng ne)); [| exact H].
  apply (IH fuel'); [lia | exact H].
Qed.

Lemma lat_loop_more_fuel (step : number) (sw ne : LatLng) :
  forall fuel fuel' lat_ pts grid,
    (fuel <= fuel')%nat ->
    lat_loop fuel step sw ne lat_ pts = Some grid ->
    lat_loop fuel' step sw ne lat_ pts = Some grid.
Proof.
  induction fuel as [| fuel IH]; intros fuel' lat_ pts grid Hle H;
    [discriminate |].
  destruct fuel' as [| fuel']; [lia |].
  cbn [lat_loop] in *. destruct (leb lat_ (lat ne)); [| exact H].
  destruct (lng_loop (S fuel) step ne lat_ (lng sw) pts) as [pts' |] eqn:E;
    [| discriminate].
  rewrite (@lng_loop_more_fuel step ne lat_ (S fuel) (S fuel') _ _ _
             ltac:(lia) E).
  apply (IH fuel'); [lia | exact H].
Qed.

(** Whatever the fuel, a grid that comes back is the raster. *)
Lemma generateGrid_with_result (s swlat swlng nelat nelng : Q)
    (fuel : nat) (grid : list LatLng) :
  0 < s ->
  generateGrid_with fuel (Fin s) (pt swlat swlng) (pt nelat nelng) = Some grid ->
  grid = raster (steps (rounds swlat nelat s) swlat s)
                (steps (rounds swlng nelng s) swlng s).
Proof.
  intros Hs H. unfold generateGrid_with in H.
  set (big := S (fuel + rounds swlat nelat s + rounds swlng nelng s)).
  apply (@lat_loop_more_fuel _ _ _ fuel big) in H; [| unfold big; lia].
  change (pt nelat nelng) with (mkLatLng (Fin nelat) (Fin nelng)) in H.
  change (pt swlat swlng) with (mkLatLng (Fin swlat) (Fin swlng)) in H.
  cbn [lat] in H.
  rewrite (@lat_loop_finite s nelat swlng nelng (Fin swlat) Hs _ swlat [] big
             eq_refl) in H by (unfold big; lia).
  now injection H as <-.
Qed.

Lemma in_raster (p : LatLng) (lats lngs : list Q) :
  In p (raster lats lngs) <-> exists a b, p = pt a b /\ In a lats /\ In b lngs.
Proof.
  unfold raster. rewrite in_flat_map. split.
  - intros (a & Ha & Hp). apply in_map_iff in Hp as (b & <- & Hb). eauto.
  - intros (a & b & -> & Ha & Hb). exists a. split; [exact Ha |].
    apply in_map_iff. eauto.
Qed.

Lemma steps_from (s : Q) (m : nat) :
  0 < s -> forall x, Forall (fun v => x <= v) (steps m x s).
Proof.
  intros Hs. induction m as [| m IH]; intros x; simpl; constructor.
  - apply Qle_refl.
  - eapply Forall_impl; [| apply (IH (x + s))]. simpl. intros v Hv. lra.
Qed.


(** X1. With a positive step, every point of a generated grid lies in the
    box: its latitude is between the southern and the northern edge, its
    longitude between the western and the eastern edge. No row or column
    is placed beyond the north-east corner. *)
Theorem grid_points_in_box (s swlat swlng nelat nelng : Q)
    (fuel : nat) (grid : list LatLng) :
  0 < s ->
  generateGrid_with fuel (Fin s) (pt swlat swlng) (pt nelat nelng) = Some grid ->
  Forall (in_box swlat swlng nelat nelng) grid.
Proof.
  intros Hs H. rewrite (@generateGrid_with_result s _ _ _ _ _ _ Hs H).
  apply Forall_forall. intros p Hp.
  apply in_raster in Hp as (a & b & -> & Ha & Hb).
  exists a, b. split; [reflexivity |].
  pose proof (@steps_within s Hs nelat _ swlat eq_refl) as Hn.
  pose proof (@steps_within s Hs nelng _ swlng eq_refl) as He.
  pose proof (@steps_from s (rounds swlat nelat s) Hs swlat) as Hsouth.
  pose proof (@steps_from s (rounds swlng nelng s) Hs swlng) as Hwest.
  rewrite Forall_forall in Hn, He, Hsouth, Hwest. auto.
Qed.



(** Any comparison that fails at the first test of the outer loop, be it
    for an inverted box or for a corner that is [NaN], gives the empty
    grid whatever the step. *)
Lemma grid_empty_without_rows (step : number) (sw ne : LatLng) (fuel : nat) :
  leb (lat sw) (lat ne) = false ->
  generateGrid_with (S fuel) step sw ne = Some [].
Proof. intros H. unfold generateGrid_with. cbn [lat_loop]. now rewrite H. Qed.

Lemma lat_loop_unbounded (s : Q) (sw : LatLng) (nelng : number) :
  forall fuel x pts,
    lat_loop fuel (Fin s) sw (mkLatLng PosInf nelng) (Fin x) pts = None.
Proof.
  induction fuel as [| fuel IH]; intros x pts; [reflexivity |].
  cbn [lat_loop lat leb add].
  destruct (lng_loop (S fuel) (Fin s) (mkLatLng PosInf nelng) (Fin x) (lng sw) pts);
    [apply IH | reflexivity].
Qed.

(** X5. When the northern edge of the box is +Infinity and the southern
    one is finite, the generator, with any finite step, is still running
    after any number of rounds: the outer loop has no end. *)
Theorem grid_unbounded_north (s swlat : Q) (swlng nelng : number) (fuel : nat) :
  generateGrid_with fuel (Fin s) (mkLatLng (Fin swlat) swlng)
                    (mkLatLng PosInf nelng) = None.
Proof. unfold generateGrid_with. cbn [lat]. apply lat_loop_unbounded. Qed.

(* ------------------------------------------------------------------ *)
(** ** More on the grid, in binary64 *)

Ltac b64_order :=
  repeat match goal with
  | |- context [Z.compare ?a ?b] => destruct (Z.compare_spec a b)
  | H : context [Z.compare ?a ?b] |- _ => destruct (Z.compare_spec a b)
  | |- context [Pos.compare_cont Eq ?a ?b] =>
      change (Pos.compare_cont Eq a b) with (Pos.compare a b);
      destruct (Pos.compare_spec a b)
  | H : context [Pos.compare_cont Eq ?a ?b] |- _ =>
      change (Pos.compare_cont Eq a b) with (Pos.compare a b) in H;
      destruct (Pos.compare_spec a b)
  end; simpl in *; try discriminate; try reflexivity; try lia.

Lemma b64_leb_trans (x y z : Binary64.number) :
  Binary64.leb x y = true -> Binary64.leb y z = true -> Binary64.leb x z = true.
Proof.
  unfold Binary64.leb, SpecFloat.SFleb, SpecFloat.SFcompare.
  destruct x as [sx | sx | | sx mx ex], y as [sy | sy | | sy my ey],
    z as [sz | sz | | sz mz ez];
    try destruct sx; try destruct sy; try destruct sz;
    simpl; try discriminate; try reflexivity; intros H1 H2; b64_order.
Qed.

Lemma b64_nth_iterate_add (s : Binary64.number) (a : nat) :
  forall b x,
    Binary64.nth_iterate (a + b) x s
    = Binary64.nth_iterate a (Binary64.nth_iterate b x s) s.
Proof.
  induction b as [| b IH]; intros x.
  - now rewrite Nat.add_0_r.
  - rewrite Nat.add_succ_r. cbn [Binary64.nth_iterate]. apply IH.
Qed.

Lemma b64_in_iterates (s : Binary64.number) (v : Binary64.number) :
  forall n x,
    In v (Binary64.iterates n x s) ->
    exists j, (j < n)%nat /\ v = Binary64.nth_iterate j x s.
Proof.
  induction n as [| n IH]; intros x Hin; [contradiction |].
  destruct Hin as [<- | Hin].
  - exists O. split; [lia | reflexivity].
  - destruct (IH _ Hin) as (j & Hj & ->). exists (S j). split; [lia | reflexivity].
Qed.

Lemma b64_rounds_nth (hi s : Binary64.number) :
  forall n x,
    Binary64.makes_rounds n x hi s = true ->
    (forall j, (j < n)%nat -> Binary64.leb (Binary64.nth_iterate j x s) hi = true)
    /\ Binary64.leb (Binary64.nth_iterate n x s) hi = false.
Proof.
  induction n as [| n IH]; intros x H; cbn [Binary64.makes_rounds] in H.
  - split; [intros j Hj; lia | now apply negb_true_iff in H].
  - apply andb_prop in H as [Hle H]. destruct (IH _ H) as [Hbelow Hout].
    split; [| exact Hout].
    intros [| j] Hj; [exact Hle | apply Hbelow; lia].
Qed.

Lemma b64_iterates_NoDup (hi s : Binary64.number) :
  forall n x,
    Binary64.makes_rounds n x hi s = true -> NoDup (Binary64.iterates n x s).
Proof.
  induction n as [| n IH]; intros x H; [constructor |].
  destruct (b64_rounds_nth _ _ _ _ H) as [Hbelow Hout].
  cbn [Binary64.makes_rounds] in H. apply andb_prop in H as [_ H].
  cbn [Binary64.iterates]. constructor; [| now apply IH].
  intros Hin. apply b64_in_iterates in Hin as (j & Hj & Hback).
  change (Binary64.nth_iterate j (Binary64.add x s) s)
    with (Binary64.nth_iterate (S j) x s) in Hback.
  replace (S n) with ((S n - S j) + S j)%nat in Hout by lia.
  rewrite b64_nth_iterate_add, <- Hback in Hout.
  rewrite Hbelow in Hout by lia. discriminate.
Qed.

Lemma b64_in_raster (p : Binary64.LatLng) (lats lngs : list Binary64.number) :
  In p (Binary64.raster lats lngs)
  <-> exists a b, p = Binary64.mkLatLng a b /\ In a lats /\ In b lngs.
Proof.
  unfold Binary64.raster. rewrite in_flat_map. split.
  - intros (a & Ha & Hp). apply in_map_iff in Hp as (b & <- & Hb). eauto.
  - intros (a & b & -> & Ha & Hb). exists a. split; [exact Ha |].
    apply in_map_iff. eauto.
Qed.

Lemma b64_raster_NoDup (lats lngs : list Binary64.number) :
  NoDup lats -> NoDup lngs -> NoDup (Binary64.raster lats lngs).
Proof.
  intros Hlats Hlngs. unfold Binary64.raster.
  induction Hlats as [| a lats Ha Hlats IH]; simpl; [constructor |].
  apply NoDup_app.
  - clear IH Ha. induction Hlngs as [| b lngs Hb Hlngs IHl]; simpl;
      constructor; [| exact IHl].
    intros Hin. apply in_map_iff in Hin as (b' & Heq & Hb').
    injection Heq as ->. contradiction.
  - exact IH.
  - intros p Hrow Hrest.
    apply in_map_iff in Hrow as (b & <- & _).
    apply (b64_in_raster (Binary64.mkLatLng a b) lats lngs) in Hrest
      as (a' & b' & Heq & Ha' & _).
    injection Heq as -> _. contradiction.
Qed.

Lemma b64_raster_length (lats lngs : list Binary64.number) :
  List.length (Binary64.raster lats lngs)
  = (List.length lats * List.length lngs)%nat.
Proof.
  unfold Binary64.raster. induction lats as [| a lats IH]; simpl; [reflexivity |].
  now rewrite length_app, length_map, IH.
Qed.

Lemma b64_iterates_length (s : Binary64.number) :
  forall n x, List.length (Binary64.iterates n x s) = n.
Proof. induction n as [| n IH]; intros x; simpl; [reflexivity | now rewrite IH]. Qed.

Lemma b64_iterates_cover (hi s a : Binary64.number) :
  Binary64.leb a hi = true ->
  forall n x,
    Binary64.makes_rounds n x hi s = true -> Binary64.leb x a = true ->
    exists v, In v (Binary64.iterates n x s)
              /\ Binary64.leb v a = true
              /\ Binary64.leb (Binary64.add v s) a = false.
Proof.
  intros Ha. induction n as [| n IH]; intros x H Hx; cbn [Binary64.makes_rounds] in H.
  - apply negb_true_iff in H. rewrite (b64_leb_trans _ _ _ Hx Ha) in H. discriminate.
  - apply andb_prop in H as [_ H].
    destruct (Binary64.leb (Binary64.add x s) a) eqn:Hnext.
    + destruct (IH _ H Hnext) as (v & Hv & Hcell). exists v. simpl. auto.
    + exists x. simpl. auto.
Qed.

Lemma b64_rounds_unique (hi s : Binary64.number) :
  forall n m x,
    Binary64.makes_rounds n x hi s = true ->
    Binary64.makes_rounds m x hi s = true -> n = m.
Proof.
  induction n as [| n IH]; intros [| m] x Hn Hm;
    cbn [Binary64.makes_rounds] in Hn, Hm.
  - reflexivity.
  - apply negb_true_iff in Hn. apply andb_prop in Hm as [Hle _]. congruence.
  - apply negb_true_iff in Hm. apply andb_prop in Hn as [Hle _]. congruence.
  - apply andb_prop in Hn as [_ Hn]. apply andb_prop in Hm as [_ Hm].
    f_equal. exact (IH _ _ Hn Hm).
Qed.

Lemma b64_lng_loop_returned (s : Binary64.number) (ne : Binary64.LatLng)
    (la : Binary64.number) :
  forall fuel x pts r,
    Binary64.lng_loop fuel s ne la x pts = Some r ->
    exists C,
      Binary64.makes_rounds C x (Binary64.lng ne) s = true
      /\ r = pts ++ map (fun b => Binary64.mkLatLng la b) (Binary64.iterates C x s).
Proof.
  induction fuel as [| fuel IH]; intros x pts r H; [discriminate |].
  cbn [Binary64.lng_loop] in H.
  destruct (Binary64.leb x (Binary64.lng ne)) eqn:Hle.
  - destruct (IH _ _ _ H) as (C & HC & ->). exists (S C).
    cbn [Binary64.makes_rounds Binary64.iterates map]. rewrite Hle, HC.
    split; [reflexivity | now rewrite <- app_assoc].
  - injection H as <-. exists O. cbn [Binary64.makes_rounds]. rewrite Hle.
    split; [reflexivity | simpl; now rewrite app_nil_r].
Qed.

Lemma b64_lat_loop_returned (s : Binary64.number) (sw ne : Binary64.LatLng) :
  forall fuel la pts r,
    Binary64.lat_loop fuel s sw ne la pts = Some r ->
    exists R,
      Binary64.makes_rounds R la (Binary64.lat ne) s = true
      /\ (R = O /\ r = pts
          \/ exists C,
               Binary64.makes_rounds C (Binary64.lng sw) (Binary64.lng ne) s = true
               /\ r = pts ++ Binary64.raster
                               (Binary64.iterates R la s)
                               (Binary64.iterates C (Binary64.lng sw) s)).
Proof.
  induction fuel as [| fuel IH]; intros la pts r H; [discriminate |].
  cbn [Binary64.lat_loop] in H.
  destruct (Binary64.leb la (Binary64.lat ne)) eqn:Hle.
  - destruct (Binary64.lng_loop (S fuel) s ne la (Binary64.lng sw) pts)
      as [row |] eqn:Hrow; [| discriminate].
    destruct (b64_lng_loop_returned _ _ _ _ _ _ Hrow) as (C & HC & ->).
    destruct (IH _ _ _ H) as (R & HR & Hrest). exists (S R).
    cbn [Binary64.makes_rounds]. rewrite Hle, HR. split; [reflexivity |].
    right. exists C. split; [exact HC |].
    destruct Hrest as [[-> ->] | (C' & HC' & ->)].
    + unfold Binary64.raster. simpl. now rewrite app_nil_r.
    + rewrite (b64_rounds_unique _ _ _ _ _ HC' HC).
      unfold Binary64.raster. simpl. now rewrite <- app_assoc.
  - injection H as <-. exists O. cbn [Binary64.makes_rounds]. rewrite Hle.
    split; [reflexivity | left; split; reflexivity].
Qed.

(** X3. No point occurs twice in a grid that [generateGrid] returns, so no
    location is searched twice in one run; and a grid that is not empty
    has as many points as the rounds that the outer loop makes times the
    rounds that the inner loop makes, the rounds being counted on the
    rounded sums. *)
Theorem grid64_points_distinct (step : Binary64.number)
    (sw ne : Binary64.LatLng) (fuel : nat) (grid : list Binary64.LatLng) :
  Binary64.generateGrid_with fuel step sw ne = Some grid ->
  NoDup grid
  /\ (grid = []
      \/ exists R C,
           Binary64.makes_rounds R (Binary64.lat sw) (Binary64.lat ne) step = true
           /\ Binary64.makes_rounds C (Binary64.lng sw) (Binary64.lng ne) step = true
           /\ List.length grid = (R * C)%nat).
Proof.
  intros H. unfold Binary64.generateGrid_with in H.
  destruct (b64_lat_loop_returned _ _ _ _ _ _ H)
    as (R & HR & [[_ ->] | (C & HC & ->)]).
  - split; [constructor | now left].
  - cbn [app]. split.
    + apply b64_raster_NoDup; eapply b64_iterates_NoDup; eassumption.
    + right. exists R, C. split; [exact HR |]. split; [exact HC |].
      now rewrite b64_raster_length, !b64_iterates_length.
Qed.

(** X2. In a grid that [generateGrid] returns, every location of the box
    is in the cell of some point of the grid: the point is at or south of
    it and at or west of it, and the next row and the next column, the
    rounded sums of the coordinates of the point and the step, are no
    longer at or below it. *)
Theorem grid64_covers_box (step : Binary64.number) (sw ne : Binary64.LatLng)
    (fuel : nat) (grid : list Binary64.LatLng) (a b : Binary64.number) :
  Binary64.generateGrid_with fuel step sw ne = Some grid ->
  Binary64.leb (Binary64.lat sw) a = true ->
  Binary64.leb a (Binary64.lat ne) = true ->
  Binary64.leb (Binary64.lng sw) b = true ->
  Binary64.leb b (Binary64.lng ne) = true ->
  exists la lo,
    In (Binary64.mkLatLng la lo) grid
    /\ Binary64.leb la a = true
    /\ Binary64.leb (Binary64.add la step) a = false
    /\ Binary64.leb lo b = true
    /\ Binary64.leb (Binary64.add lo step) b = false.
Proof.
  intros H Ha1 Ha2 Hb1 Hb2. unfold Binary64.generateGrid_with in H.
  destruct (b64_lat_loop_returned _ _ _ _ _ _ H)
    as (R & HR & [[-> _] | (C & HC & ->)]).
  - cbn [Binary64.makes_rounds] in HR.
    rewrite (b64_leb_trans _ _ _ Ha1 Ha2) in HR. discriminate.
  - destruct (@b64_iterates_cover _ step a Ha2 _ _ HR Ha1)
      as (la & Hla & Hla1 & Hla2).
    destruct (@b64_iterates_cover _ step b Hb2 _ _ HC Hb1)
      as (lo & Hlo & Hlo1 & Hlo2).
    exists la, lo. cbn [app]. split; [| auto]. apply b64_in_raster. eauto.
Qed.

(* ------------------------------------------------------------------ *)
(** ** More on merging *)

Lemma existsb_eqb_in (k : string) (seen : list string) :
  existsb (String.eqb k) seen = true <-> In k seen.
Proof.
  rewrite existsb_exists. split.
  - intros (x & Hx & He). apply String.eqb_eq in He. now subst.
  - intros H. exists k. split; [exact H | apply String.eqb_refl].
Qed.

(** X6. Merging a batch leaves the keys that were in the map where they
    were and puts the new ids behind them, each once, in the order in
    which the batch shows them first. The values of the map, which is what
    is exported, therefore come in the order of first discovery. *)
Theorem merge_key_order (batch : list Place) :
  forall unique : JsMap.t Place,
    JsMap.keys (merge unique batch)
    = JsMap.keys unique ++ first_seen (JsMap.keys unique) (map id batch).
Proof.
  induction batch as [| p batch IH]; intros unique.
  - simpl. now rewrite app_nil_r.
  - change (merge unique (p :: batch))
      with (merge (JsMap.set (id p) p unique) batch).
    rewrite IH. cbn [map first_seen].
    destruct (existsb (String.eqb (id p)) (JsMap.keys unique)) eqn:E.
    + apply existsb_eqb_in in E. now rewrite keys_set_in by exact E.
    + assert (~ In (id p) (JsMap.keys unique)) as Hnew.
      { intros Hin. apply existsb_eqb_in in Hin. congruence. }
      rewrite keys_set_new by exact Hnew. now rewrite <- app_assoc.
Qed.

Lemma merge_length (batch : list Place) :
  forall unique : JsMap.t Place,
    (List.length unique <= List.length (merge unique batch)
     <= List.length unique + List.length batch)%nat.
Proof.
  induction batch as [| p batch IH]; intros unique; [simpl; lia |].
  change (merge unique (p :: batch))
    with (merge (JsMap.set (id p) p unique) batch).
  specialize (IH (JsMap.set (id p) p unique)).
  assert (List.length unique <= List.length (JsMap.set (id p) p unique)
          <= S (List.length unique))%nat as Hset.
  { clear IH. induction unique as [| [k v] m IHm]; simpl; [lia |].
    destruct (String.eqb k (id p)); simpl; lia. }
  simpl. lia.
Qed.

(** X7. Merging never takes a record away: the map does not shrink and
    grows by at most the size of the batch, every key stays a key, and a
    record whose id does not occur in the batch is still the record found
    under that id. *)
Theorem merge_keeps_records (unique : JsMap.t Place) (batch : list Place) :
  (List.length unique <= List.length (merge unique batch)
   <= List.length unique + List.length batch)%nat
  /\ (forall k, In k (JsMap.keys unique) -> In k (JsMap.keys (merge unique batch)))
  /\ (forall k, ~ In k (map id batch) ->
        JsMap.get k (merge unique batch) = JsMap.get k unique).
Proof.
  split; [apply merge_length |]. split.
  - intros k Hk. apply in_keys_merge. now left.
  - intros k Hk. rewrite get_merge.
    destruct (find_last k batch) as [p |] eqn:E; [| reflexivity].
    apply find_last_some in E as [Hin <-]. exfalso. apply Hk. now apply in_map.
Qed.

(* ------------------------------------------------------------------ *)
(** ** More on the export *)

Lemma undouble_quoted (content : list ascii) :
  undouble
    (flat_map (fun a => if Ascii.eqb a JsString.dquote
                        then [JsString.dquote; JsString.dquote]
                        else [a]) content
     ++ [JsString.dquote])
  = Some content.
Proof.
  induction content as [| a content IH]; [reflexivity |].
  cbn [flat_map]. destruct (Ascii.eqb a JsString.dquote) eqn:E.
  - apply Ascii.eqb_eq in E. subst a.
    cbn [app undouble]. rewrite Ascii.eqb_refl, IH. reflexivity.
  - cbn [app undouble]. rewrite E, IH. reflexivity.
Qed.

Lemma unquote_quoted (content : list ascii) : unquote (quoted content) = Some content.
Proof.
  unfold quoted, unquote. rewrite Ascii.eqb_refl. apply undouble_quoted.
Qed.

(** X8. What [escape] writes can be read back: taking off the outer double
    quotes and reading two double quotes as one gives the text of the
    value again, so two strings with the same cell are the same string. A
    missing value and the empty string give the same cell. *)
Theorem escape_round_trip (env : Env) :
  (forall value : CsvValue,
     unquote (list_ascii_of_string (escape env value))
     = Some (list_ascii_of_string
               (match value with
                | Some v => String_ env v
                | None => EmptyString
                end)))
  /\ (forall a b : string,
        escape env (Some (inl a)) = escape env (Some (inl b)) -> a = b)
  /\ escape env None = escape env (Some (inl EmptyString)).
Proof.
  assert (forall value : CsvValue,
            unquote (list_ascii_of_string (escape env value))
            = Some (list_ascii_of_string
                      (match value with
                       | Some v => String_ env v
                       | None => EmptyString
                       end))) as Hback.
  { intros value.
    rewrite escape_quoted, list_ascii_of_string_of_list_ascii.
    apply unquote_quoted. }
  split; [exact Hback |]. split; [| reflexivity].
  intros a b Heq.
  pose proof (Hback (Some (inl a))) as Ha.
  pose proof (Hback (Some (inl b))) as Hb.
  rewrite Heq, Hb in Ha. injection Ha as Ha.
  rewrite <- (string_of_list_ascii_of_string a),
          <- (string_of_list_ascii_of_string b).
  now rewrite Ha.
Qed.

Lemma concat_empty_snoc (l : list string) (x : string) :
  String.concat EmptyString (l ++ [x])
  = (String.concat EmptyString l ++ x)%string.
Proof.
  induction l as [| y l IH]; [reflexivity |].
  destruct l as [| z l].
  - simpl. reflexivity.
  - change (String.concat EmptyString ((y :: z :: l) ++ [x]))
      with (y ++ EmptyString ++ String.concat EmptyString ((z :: l) ++ [x]))%string.
    rewrite IH.
    change (String.concat EmptyString (y :: z :: l))
      with (y ++ EmptyString ++ String.concat EmptyString (z :: l))%string.
    cbn [append]. now rewrite append_assoc.
Qed.

Lemma concat_ends_with_last (sep x : string) (l : list string) :
  exists front, String.concat sep (l ++ [x]) = (front ++ x)%string.
Proof.
  induction l as [| y l [front IH]].
  - now exists EmptyString.
  - destruct l as [| z l].
    + exists (y ++ sep)%string. simpl. now rewrite append_assoc.
    + exists (y ++ sep ++ front)%string.
      change (String.concat sep ((y :: z :: l) ++ [x]))
        with (y ++ sep ++ String.concat sep ((z :: l) ++ [x]))%string.
      now rewrite IH, !append_assoc.
Qed.

Lemma row_ends_with_quote (env : Env) (p : Place) :
  exists front,
    String.concat "," (row_fields env p)
    = (front ++ String "034" EmptyString)%string.
Proof.
  change (row_fields env p)
    with ((firstn 7 (row_fields env p))
          ++ [escape env (of_number (option_map longitude (location p)))]).
  destruct (concat_ends_with_last ","
              (escape env (of_number (option_map longitude (location p))))
              (firstn 7 (row_fields env p))) as [front ->].
  unfold escape.
  eexists. rewrite <- !append_assoc. reflexivity.
Qed.

Lemma last_character (a : string) (c d : ascii) :
  last (list_ascii_of_string (a ++ String c EmptyString)) d = c.
Proof. rewrite list_ascii_app. apply last_last. Qed.

(** X9. The text for no record is the header line alone; one more record
    at the end of the list adds a line break (character 10) and the line
    of that record, cells separated by commas, at the end of the text and
    leaves what was there for the earlier records as it was; and the text
    never ends with a line break. *)
Theorem toCsv_grows_by_lines (env : Env) (places : list Place) (p : Place) :
  toCsv env []
  = "id,name,rating,userRatingCount,websiteUri,formattedAddress,latitude,longitude"%string
  /\ toCsv env (places ++ [p])
     = (toCsv env places
        ++ String "010" (String.concat "," (row_fields env p)))%string
  /\ (forall body, toCsv env places <> (body ++ String "010" EmptyString)%string).
Proof.
  assert (forall ps q,
            toCsv env (ps ++ [q])
            = (toCsv env ps ++ String "010" (String.concat "," (row_fields env q)))%string)
    as Hsnoc.
  { intros ps q. unfold toCsv.
    rewrite !join_cons, map_app, map_app. cbn [map].
    rewrite concat_empty_snoc. now rewrite append_assoc. }
  split; [reflexivity |]. split; [apply Hsnoc |].
  intros body Heq.
  apply (f_equal (fun t => last (list_ascii_of_string t) "000"%char)) in Heq.
  rewrite last_character in Heq.
  destruct places as [| q ps] using rev_ind.
  - vm_compute in Heq. discriminate.
  - rewrite Hsnoc in Heq.
    destruct (row_ends_with_quote env q) as [front Hrow]. rewrite Hrow in Heq.
    change (toCsv env ps ++ String "010" (front ++ String "034" EmptyString))%string
      with (toCsv env ps ++ (String "010" front ++ String "034" EmptyString))%string
      in Heq.
    rewrite <- append_assoc, last_character in Heq. discriminate.
Qed.

(* ------------------------------------------------------------------ *)
(** ** More on the orchestrator *)

Section MoreRunFacts.

Variable env : Env.
Variable API_KEY : string.

Lemma geocodeCity_eq (city : string) (t : Trace) :
  geocodeCity env API_KEY city t
  = let answer := geocode_answer env t city in
    (match answer with
     | inl e => Thrown e
     | inr json =>
         match results json with
         | [] => Thrown (Error "No geocode results")
         | first :: _ =>
             Returned (match bounds (geometry first) with
                       | Some b => b
                       | None => viewport (geometry first)
                       end)
         end
     end,
     t ++ [GeocodeCall city API_KEY answer]).
Proof.
  unfold geocodeCity, bind, history, emit, lift_sum, throw, ret. simpl.
  destruct (geocode_answer env t city) as [e | json]; [reflexivity |].
  destruct (results json); reflexivity.
Qed.

(** The loop of [run], event by event. *)
Lemma search_loop_paced (types : list string) (grid : list LatLng) :
  forall unique t,
    match fst (search_loop env API_KEY types grid unique t) with
    | Returned unique' =>
        exists answered,
          map fst answered = grid
          /\ snd (search_loop env API_KEY types grid unique t)
             = t ++ paced_calls API_KEY types answered
          /\ unique'
             = fold_left merge (map (fun a => places_or_empty (snd a)) answered)
                         unique
    | Thrown e =>
        exists answered p rest,
          grid = map fst answered ++ p :: rest
          /\ snd (search_loop env API_KEY types grid unique t)
             = t ++ paced_calls API_KEY types answered
                 ++ [PlacesCall p SEARCH_RADIUS types API_KEY (inl e)]
    | OutOfFuel => False
    end.
Proof.
  induction grid as [| p grid IH]; intros unique t.
  - simpl. exists []. simpl. now rewrite app_nil_r.
  - rewrite search_loop_cons. cbv zeta.
    destruct (places_answer env t p types) as [e | json].
    + cbn [fst snd]. exists [], p, grid. simpl. auto.
    + specialize (IH (merge unique (places_or_empty json))
                     ((t ++ [PlacesCall p SEARCH_RADIUS types API_KEY (inr json)])
                      ++ [Sleep (of_Z 300)])).
      destruct (search_loop env API_KEY types grid _ _) as [[u | e |] t'];
        cbn [fst snd] in *.
      * destruct IH as (answered & Hgrid & Ht & Hu).
        exists ((p, json) :: answered). simpl.
        rewrite Hgrid, Ht, <- !app_assoc. auto.
      * destruct IH as (answered & q & rest & Hgrid & Ht).
        exists ((p, json) :: answered), q, rest. simpl.
        rewrite Hgrid, Ht, <- !app_assoc. auto.
      * exact IH.
Qed.

End MoreRunFacts.

(** X10. The loop over the grid sends one search per grid point, in grid
    order, each with the fixed radius of 3000, the given types and the key,
    and waits 300 ms after every answered search before anything else
    happens. If it ends normally, that is all it does and the map holds the
    merged answers; if a search fails, that search is its last event. It
    never runs out of rounds. *)
Theorem search_loop_is_paced (env : Env) (API_KEY : string)
    (types : list string) (grid : list LatLng) (unique : JsMap.t Place)
    (t : Trace) :
  match fst (search_loop env API_KEY types grid unique t) with
  | Returned unique' =>
      exists answered,
        map fst answered = grid
        /\ snd (search_loop env API_KEY types grid unique t)
           = t ++ paced_calls API_KEY types answered
        /\ unique'
           = fold_left merge (map (fun a => places_or_empty (snd a)) answered)
                       unique
  | Thrown e =>
      exists answered p rest,
        grid = map fst answered ++ p :: rest
        /\ snd (search_loop env API_KEY types grid unique t)
           = t ++ paced_calls API_KEY types answered
               ++ [PlacesCall p SEARCH_RADIUS types API_KEY (inl e)]
  | OutOfFuel => False
  end.
Proof. apply search_loop_paced. Qed.

Lemma paced_calls_read (key : string) (types : list string)
    (answered : list (LatLng * PlacesSearchResponse)) :
  searched_points (paced_calls key types answered) = map fst answered
  /\ answers_in (paced_calls key types answered)
     = map (fun a => (fst a, places_or_empty (snd a))) answered
  /\ failed_searches (paced_calls key types answered) = []
  /\ write_calls (paced_calls key types answered) = []
  /\ geocode_calls (paced_calls key types answered) = [].
Proof.
  induction answered as [| a answered (H1 & H2 & H3 & H4 & H5)]; simpl;
    [repeat split |].
  rewrite H1, H2, H3, H4, H5. repeat split.
Qed.

(** A run that returns has gone through every stage; its trace, event by
    event. *)
Lemma run_returned_trace (env : Env) (API_KEY : string) (fuel : nat)
    (city : string) (types : list string) (testLimit : option number)
    (t : Trace) :
  fst (run env API_KEY fuel city types testLimit t) = Returned tt ->
  exists json first others fullGrid answered,
    results json = first :: others
    /\ generateGrid fuel (southwest (bounds_of first)) (northeast (bounds_of first))
       = Some fullGrid
    /\ map fst answered = select_grid testLimit fullGrid
    /\ snd (run env API_KEY fuel city types testLimit t)
       = t ++ [ConsoleLog (LogGeocoding city); ConsoleLog (LogTypes types);
               GeocodeCall city API_KEY (inr json);
               ConsoleLog
                 (if limit_given testLimit
                  then LogTestMode (List.length (select_grid testLimit fullGrid))
                                   (List.length fullGrid)
                  else LogGridPoints (List.length (select_grid testLimit fullGrid)))]
           ++ paced_calls API_KEY types answered
           ++ (let unique :=
                 fold_left merge
                   (map (fun a => places_or_empty (snd a)) answered) JsMap.empty in
               [ConsoleLog (LogFound (List.length (JsMap.values unique)));
                WriteFile (fileName_of city) (toCsv env (JsMap.values unique)) None;
                ConsoleLog (LogExported (fileName_of city))]).
Proof.
  rewrite run_eq. cbv zeta. rewrite geocodeCity_eq. cbv zeta.
  destruct (geocode_answer env _ city) as [e | json]; [discriminate |].
  destruct (results json) as [| first others] eqn:Hres; [discriminate |].
  fold (bounds_of first).
  destruct (generateGrid fuel _ _) as [fullGrid |] eqn:Hgrid; [| discriminate].
  set (grid := select_grid testLimit fullGrid).
  match goal with
  | |- context [search_loop env API_KEY types grid JsMap.empty ?t2] =>
      pose proof (search_loop_paced env API_KEY types grid JsMap.empty t2) as Hloop;
      destruct (search_loop env API_KEY types grid JsMap.empty t2)
        as [[unique | e |] t3]
  end; cbn [fst snd] in Hloop; try discriminate.
  destruct Hloop as (answered & Hanswered & -> & ->).
  destruct (write_failure env _ _ _); [discriminate |].
  intros _. exists json, first, others, fullGrid, answered.
  split; [exact Hres |]. split; [exact Hgrid |]. split; [exact Hanswered |].
  cbn [snd]. rewrite <- !app_assoc. reflexivity.
Qed.

Lemma run_returned_summary (env : Env) (API_KEY : string) (fuel : nat)
    (city : string) (types : list string) (testLimit : option number)
    (t : Trace) :
  fst (run env API_KEY fuel city types testLimit t) = Returned tt ->
  exists ev,
    snd (run env API_KEY fuel city types testLimit t) = t ++ ev
    /\ geocode_calls ev = [city]
    /\ failed_searches ev = []
    /\ write_calls ev
       = [(fileName_of city,
           toCsv env (JsMap.values
                        (fold_left merge (responses_in ev) JsMap.empty)))].
Proof.
  intros Hret.
  destruct (run_returned_trace _ _ _ _ _ _ _ Hret)
    as (json & first & others & fullGrid & answered & _ & _ & _ & Htrace).
  destruct (paced_calls_read API_KEY types answered)
    as (_ & Hanswers & Hfailed & Hwrites & Hgeo).
  eexists. split; [exact Htrace |].
  unfold responses_in.
  rewrite !geocode_calls_app, !failed_searches_app, !write_calls_app,
    !answers_in_app, Hgeo, Hfailed, Hwrites, Hanswers.
  cbv zeta. simpl. rewrite !app_nil_r, map_map. simpl. repeat split.
Qed.

(** X11. A run that returns has called the geocoding service once, for the
    city, has had every search answered, and has called [writeFileSync]
    exactly once: with the file name made from the city and with the text
    of the records of the map into which the answers were merged in the
    order of the searches. *)
Theorem run_exports_merged_answers (env : Env) (API_KEY : string) (fuel : nat)
    (city : string) (types : list string) (testLimit : option number)
    (t : Trace) :
  fst (run env API_KEY fuel city types testLimit t) = Returned tt ->
  exists ev,
    snd (run env API_KEY fuel city types testLimit t) = t ++ ev
    /\ geocode_calls ev = [city]
    /\ failed_searches ev = []
    /\ write_calls ev
       = [(fileName_of city,
           toCsv env (JsMap.values
                        (fold_left merge (responses_in ev) JsMap.empty)))].
Proof. apply run_returned_summary. Qed.

(** X12. The script ends with exit code 0 only if the key was set and not
    empty, the arguments gave a city that is not empty, every search was
    answered, and [writeFileSync] was called exactly once, without
    failing, for the file named after that city; that call and the line
    that reports it are the last two events. *)
Theorem main_exit_zero (env : Env) (GOOGLE_API_KEY : option string)
    (argv : list string) (fuel : nat) :
  fst (main env GOOGLE_API_KEY argv fuel) = Exit 0 ->
  (exists key, GOOGLE_API_KEY = Some key /\ key <> EmptyString)
  /\ city_of env argv <> EmptyString
  /\ geocode_calls (snd (main env GOOGLE_API_KEY argv fuel)) = [city_of env argv]
  /\ failed_searches (snd (main env GOOGLE_API_KEY argv fuel)) = []
  /\ exists t0 csv,
       snd (main env GOOGLE_API_KEY argv fuel)
       = t0 ++ [WriteFile (fileName_of (city_of env argv)) csv None;
                ConsoleLog (LogExported (fileName_of (city_of env argv)))]
       /\ write_calls t0 = [].
Proof.
  unfold main. fold (city_of env argv).
  destruct GOOGLE_API_KEY as [[| a k] |]; try discriminate.
  set (o := parse_args env (skipn 2 argv)).
  destruct (JsString.truthy (city_of env argv)) eqn:Hcity; cbn [negb];
    [| discriminate].
  pose proof (@run_returned_trace env (String a k) fuel (city_of env argv)
                (types o) (testLimit o) []) as Htrace.
  pose proof (@run_returned_summary env (String a k) fuel (city_of env argv)
                (types o) (testLimit o) []) as Hsum.
  destruct (run env (String a k) fuel (city_of env argv) (types o) (testLimit o) [])
    as [[[] | e |] t']; cbn [fst snd] in *; try discriminate.
  intros _.
  destruct (Htrace eq_refl)
    as (json & first & others & fullGrid & answered & _ & _ & _ & Ht').
  destruct (Hsum eq_refl) as (ev & Hev & Hgeo & Hfailed & _).
  simpl in Hev. subst ev.
  split; [exists (String a k); split; [reflexivity | discriminate] |].
  split; [intros Hempty; rewrite Hempty in Hcity; discriminate |].
  split; [exact Hgeo |]. split; [exact Hfailed |].
  destruct (paced_calls_read (String a k) (types o) answered)
    as (_ & _ & _ & Hwrites & _).
  eexists. eexists. split.
  - rewrite Ht'. cbv zeta. cbn [app].
    rewrite !app_comm_cons.
    match goal with
    | |- ?pre ++ [?x; ?y; ?z] = _ =>
        change (pre ++ [x; y; z]) with (pre ++ [x] ++ [y; z])
    end.
    rewrite app_assoc. reflexivity.
  - rewrite write_calls_app. cbn [write_calls app].
    rewrite Hwrites. reflexivity.
Qed.

(** X13. When the geocoding call is rejected, [run] ends with the error of
    the rejection; when it is answered with an empty list of results,
    [run] ends with the error "No geocode results". In both cases the
    geocoding call is the last event of the run: no grid is generated,
    nothing is searched and nothing is written. *)
Theorem run_without_bounds (env : Env) (API_KEY : string) (fuel : nat)
    (city : string) (types : list string) (testLimit : option number)
    (t : Trace) :
  let t0 := t ++ [ConsoleLog (LogGeocoding city); ConsoleLog (LogTypes types)] in
  (forall e,
     geocode_answer env t0 city = inl e ->
     run env API_KEY fuel city types testLimit t
     = (Thrown e, t0 ++ [GeocodeCall city API_KEY (inl e)]))
  /\ (forall json,
        geocode_answer env t0 city = inr json -> results json = [] ->
        run env API_KEY fuel city types testLimit t
        = (Thrown (Error "No geocode results"),
           t0 ++ [GeocodeCall city API_KEY (inr json)])).
Proof.
  cbv zeta.
  assert ((t ++ [ConsoleLog (LogGeocoding city)]) ++ [ConsoleLog (LogTypes types)]
          = t ++ [ConsoleLog (LogGeocoding city); ConsoleLog (LogTypes types)])
    as Ht0 by now rewrite <- app_assoc.
  split.
  - intros e He. rewrite run_eq. cbv zeta. rewrite geocodeCity_eq. cbv zeta.
    rewrite Ht0, He. reflexivity.
  - intros json Hjson Hres. rewrite run_eq. cbv zeta.
    rewrite geocodeCity_eq. cbv zeta. rewrite Ht0, Hjson, Hres. reflexivity.
Qed.

(** X14. When the grid that is to be searched is empty (the box is turned
    over, or the limit cut everything off) and the file can be written,
    the run searches nothing, waits for nothing, reports zero places and
    writes a file that holds the header line alone. *)
Theorem run_on_empty_grid (env : Env) (API_KEY : string) (fuel : nat)
    (city : string) (types : list string) (testLimit : option number)
    (t : Trace) (b : Bounds) (t1 : Trace) (fullGrid : list LatLng) :
  geocodeCity env API_KEY city
    ((t ++ [ConsoleLog (LogGeocoding city)]) ++ [ConsoleLog (LogTypes types)])
  = (Returned b, t1) ->
  generateGrid fuel (southwest b) (northeast b) = Some fullGrid ->
  select_grid testLimit fullGrid = [] ->
  (forall t' f d, write_failure env t' f d = None) ->
  run env API_KEY fuel city types testLimit t
  = (Returned tt,
     t1 ++ [ConsoleLog (if limit_given testLimit
                        then LogTestMode 0 (List.length fullGrid)
                        else LogGridPoints 0);
            ConsoleLog (LogFound 0);
            WriteFile (fileName_of city) (JsString.join JsString.comma header) None;
            ConsoleLog (LogExported (fileName_of city))]).
Proof.
  intros Hgeo Hgrid Hempty Hwrite.
  rewrite run_eq. cbv zeta. rewrite Hgeo, Hgrid, Hempty.
  cbn [search_loop ret JsMap.values JsMap.empty map List.length].
  rewrite Hwrite. rewrite <- !app_assoc. reflexivity.
Qed.

(* ------------------------------------------------------------------ *)
(** ** More on test mode *)

Lemma slice0_front {A} (l : list A) (end_ : number) :
  exists rest, l = slice0 l end_ ++ rest.
Proof.
  unfold slice0. destruct end_ as [| | | q].
  - now exists l.
  - exists []. now rewrite app_nil_r.
  - now exists l.
  - eexists. symmetry. apply firstn_skipn.
Qed.

(** X15. Whatever the limit is, the grid that is searched is a front part
    of the generated grid: the limit never adds a point and never changes
    the order. A limit above zero that is not whole is rounded down, so a
    limit below one leaves nothing to search; the limit +Infinity and no
    limit at all leave the grid whole. *)
Theorem select_grid_front (fullGrid : list LatLng) :
  (forall testLimit, exists rest, fullGrid = select_grid testLimit fullGrid ++ rest)
  /\ (forall q, 0 < q ->
        select_grid (Some (Fin q)) fullGrid
        = firstn (Z.to_nat (Qfloor q)) fullGrid)
  /\ (forall q, 0 < q -> q < 1 -> select_grid (Some (Fin q)) fullGrid = [])
  /\ select_grid (Some PosInf) fullGrid = fullGrid
  /\ select_grid None fullGrid = fullGrid.
Proof.
  split; [| split; [| split; [| split; reflexivity]]].
  - intros [n |]; simpl.
    + destruct (JsNumber.truthy n && gtb n (of_Z 0)).
      * apply slice0_front.
      * exists []. now rewrite app_nil_r.
    + exists []. now rewrite app_nil_r.
  - intros q Hq. now apply select_grid_limit.
  - intros q Hq Hq1. rewrite select_grid_limit by exact Hq.
    assert (Qfloor q = 0%Z) as ->; [| reflexivity].
    apply Qfloor_unique.
    + change (inject_Z 0) with 0. lra.
    + change (inject_Z (0 + 1)) with 1. lra.
Qed.

(* ------------------------------------------------------------------ *)
(** ** More on the command line *)

Lemma parse_args_snoc (env : Env) (args : list string) (a : string) :
  parse_args env (args ++ [a]) = parse_arg env (parse_args env args) a.
Proof. unfold parse_args. now rewrite fold_left_app. Qed.

(** X16. The loop over the arguments takes the arguments that are not
    options, in their order, as the parts of the city; the limit is read
    from the last [--test=] argument, if there is one; the types are read
    from the last [--types=] argument, and are restaurant and cafe if
    there is none. Options and place-name words may come in any order. *)
Theorem parse_args_reads (env : Env) (rawArgs : list string) :
  cityParts (parse_args env rawArgs)
  = filter (fun a => negb (is_option a)) rawArgs
  /\ testLimit (parse_args env rawArgs)
     = option_map (fun a => Number_of env (after_eq a))
                  (find is_test (rev rawArgs))
  /\ types (parse_args env rawArgs)
     = match find is_types (rev rawArgs) with
       | Some a => types (parse_arg env default_options a)
       | None => ["restaurant"; "cafe"]%string
       end.
Proof.
  split.
  - unfold parse_args. now rewrite cityParts_fold.
  - induction rawArgs as [| a args [IHtest IHtypes]] using rev_ind;
      [split; reflexivity |].
    rewrite parse_args_snoc, rev_app_distr. cbn [rev app find].
    unfold parse_arg, is_test, is_types.
    destruct (JsString.startsWith a "--test=") eqn:E1;
      cbn [negb andb testLimit types].
    + split; [reflexivity | exact IHtypes].
    + destruct (JsString.startsWith a "--types=") eqn:E2; cbn [testLimit types];
        split; auto.
      unfold parse_arg. now rewrite E1, E2.
Qed.

Lemma split_free (c : ascii) (v : string) :
  free_of c v = true -> JsString.split c v = [v].
Proof.
  induction v as [| a v IH]; [reflexivity |].
  cbn [free_of JsString.split]. intros H. apply andb_prop in H as [Ha Hv].
  apply negb_true_iff in Ha. rewrite Ha, (IH Hv). reflexivity.
Qed.

Lemma split_at_first (c : ascii) (v w : string) :
  free_of c v = true ->
  JsString.split c (v ++ String c w) = v :: JsString.split c w.
Proof.
  induction v as [| a v IH]; cbn [free_of append JsString.split].
  - intros _. now rewrite Ascii.eqb_refl.
  - intros H. apply andb_prop in H as [Ha Hv].
    apply negb_true_iff in Ha. rewrite Ha, (IH Hv). reflexivity.
Qed.

Lemma startsWith_append (p v : string) : JsString.startsWith (p ++ v) p = true.
Proof.
  unfold JsString.startsWith. induction p as [| a p IH]; simpl.
  - destruct v; reflexivity.
  - destruct (ascii_dec a a); [exact IH | congruence].
Qed.

(** X17. An argument [--test=V] sets the limit to [Number(V)] when [V] has
    no equals sign, also when [V] is empty; when [V] has one, the limit is
    the number of what stands before the first equals sign of [V], and the
    rest is ignored. The types and the city parts stay as they were. *)
Theorem test_option_value (env : Env) (o : Options) (v w : string) :
  free_of eq_sign v = true ->
  parse_arg env o ("--test=" ++ v)
  = mkOptions (Some (Number_of env v)) (types o) (cityParts o)
  /\ parse_arg env o ("--test=" ++ v ++ String eq_sign w)
     = mkOptions (Some (Number_of env v)) (types o) (cityParts o).
Proof.
  intros Hv. unfold parse_arg, after_eq. split; rewrite startsWith_append.
  - assert (JsString.split eq_sign ("--test=" ++ v)
            = "--test"%string :: JsString.split eq_sign v) as -> by reflexivity.
    rewrite (split_free eq_sign v Hv). reflexivity.
  - assert (JsString.split eq_sign ("--test=" ++ v ++ String eq_sign w)
            = "--test"%string :: JsString.split eq_sign (v ++ String eq_sign w))
      as -> by reflexivity.
    rewrite (split_at_first eq_sign v w Hv). reflexivity.
Qed.

Lemma rev_string_list (s : string) :
  forall acc,
    list_ascii_of_string (JsString.rev_string acc s)
    = rev (list_ascii_of_string s) ++ list_ascii_of_string acc.
Proof.
  induction s as [| a s IH]; intros acc; simpl; [reflexivity |].
  rewrite IH. simpl. now rewrite <- app_assoc.
Qed.

Lemma trimStart_list (s : string) :
  list_ascii_of_string (JsString.trimStart s)
  = drop_spaces (list_ascii_of_string s).
Proof.
  induction s as [| a s IH]; simpl; [reflexivity |].
  destruct (JsString.is_space a); [exact IH | reflexivity].
Qed.

Lemma trim_list (s : string) :
  list_ascii_of_string (JsString.trim s)
  = rev (drop_spaces (rev (drop_spaces (list_ascii_of_string s)))).
Proof.
  unfold JsString.trim, JsString.trimEnd.
  rewrite rev_string_list, trimStart_list, rev_string_list, trimStart_list.
  simpl. now rewrite !app_nil_r.
Qed.

Lemma drop_spaces_clean (l : list ascii) : clean_start (drop_spaces l).
Proof.
  induction l as [| a l IH]; simpl; [exact I |].
  destruct (JsString.is_space a) eqn:E; [exact IH | exact E].
Qed.

Lemma drop_spaces_id (l : list ascii) : clean_start l -> drop_spaces l = l.
Proof. destruct l as [| a l]; simpl; [reflexivity | now intros ->]. Qed.

Lemma drop_spaces_suffix (l : list ascii) : exists sp, l = sp ++ drop_spaces l.
Proof.
  induction l as [| a l [sp IH]]; simpl; [now exists [] |].
  destruct (JsString.is_space a).
  - exists (a :: sp). simpl. now rewrite <- IH.
  - now exists [].
Qed.

Lemma trimmed_clean (l : list ascii) :
  clean_start l -> clean_start (rev (drop_spaces (rev l))).
Proof.
  intros Hl. destruct (drop_spaces_suffix (rev l)) as [sp Hsp].
  apply (f_equal (@rev ascii)) in Hsp. rewrite rev_involutive, rev_app_distr in Hsp.
  destruct (rev (drop_spaces (rev l))) as [| a r]; [exact I |].
  rewrite Hsp in Hl. exact Hl.
Qed.

Lemma trim_idempotent (s : string) : JsString.trim (JsString.trim s) = JsString.trim s.
Proof.
  apply list_ascii_inj.
  rewrite (trim_list (JsString.trim s)), (trim_list s).
  set (x := drop_spaces (list_ascii_of_string s)).
  assert (clean_start x) as Hx by apply drop_spaces_clean.
  rewrite (@drop_spaces_id _ (@trimmed_clean x Hx)).
  rewrite rev_involutive.
  now rewrite (@drop_spaces_id _ (drop_spaces_clean (rev x))).
Qed.

(** X18. Every type that a [--types=] argument gives is a string that is
    not empty and that has no white space at its ends (trimming it again
    changes nothing), so an entry that is empty or blank never reaches the
    search. *)
Theorem types_option_entries (env : Env) (o : Options) (arg ty : string) :
  is_types arg = true ->
  In ty (types (parse_arg env o arg)) ->
  ty <> EmptyString /\ JsString.trim ty = ty.
Proof.
  unfold is_types, parse_arg. intros Harg.
  apply andb_prop in Harg as [Htest Htypes].
  apply negb_true_iff in Htest. rewrite Htest, Htypes. cbn [types].
  intros Hin. apply filter_In in Hin as [Hin Hfull].
  apply in_map_iff in Hin as (x & <- & _). split.
  - intros Hempty. rewrite Hempty in Hfull. discriminate.
  - apply trim_idempotent.
Qed.

(* ------------------------------------------------------------------ *)
(** ** More on the file name *)

Lemma spaceless_append (a b : string) :
  spaceless (a ++ b) = spaceless a && spaceless b.
Proof.
  induction a as [| c a IH]; simpl; [reflexivity |].
  now rewrite IH, andb_assoc.
Qed.

Lemma replace_spaces_spaceless (s : string) :
  forall in_run, spaceless (JsString.replace_spaces "_" in_run s) = true.
Proof.
  induction s as [| a s IH]; intros in_run; simpl; [reflexivity |].
  destruct (JsString.is_space a) eqn:E.
  - destruct in_run; [apply IH |].
    change ("_" ++ JsString.replace_spaces "_" true s)%string
      with (String "_" (JsString.replace_spaces "_" true s)).
    cbn [spaceless]. now rewrite IH.
  - cbn [spaceless]. now rewrite E, IH.
Qed.

Lemma replace_spaces_none (s : string) :
  spaceless s = true -> forall in_run, JsString.replace_spaces "_" in_run s = s.
Proof.
  induction s as [| a s IH]; intros H in_run; simpl; [reflexivity |].
  simpl in H. apply andb_prop in H as [Ha Hs].
  apply negb_true_iff in Ha. now rewrite Ha, (IH Hs).
Qed.

Lemma ascii_only_append (a b : string) :
  ascii_only (a ++ b) = ascii_only a && ascii_only b.
Proof.
  induction a as [| c a IH]; simpl; [reflexivity |].
  now rewrite IH, andb_assoc.
Qed.

Lemma replace_spaces_ascii_only (s : string) :
  ascii_only s = true ->
  forall in_run, ascii_only (JsString.replace_spaces "_" in_run s) = true.
Proof.
  induction s as [| a s IH]; intros H in_run; [reflexivity |].
  cbn [ascii_only] in H. apply andb_prop in H as [Ha Hs].
  cbn [JsString.replace_spaces].
  destruct (JsString.is_space a).
  - destruct in_run; [now apply IH |].
    change ("_" ++ JsString.replace_spaces "_" true s)%string
      with (String "_" (JsString.replace_spaces "_" true s)).
    cbn [ascii_only]. now rewrite (IH Hs).
  - cbn [ascii_only]. now rewrite Ha, (IH Hs).
Qed.

Lemma replace_spaces_word (by_ : string) (a rest : string) :
  spaceless a = true ->
  JsString.replace_spaces by_ false (a ++ rest)
  = (a ++ JsString.replace_spaces by_ false rest)%string.
Proof.
  induction a as [| c a IH]; intros H; [reflexivity |].
  cbn [spaceless] in H. apply andb_prop in H as [Hc Ha].
  apply negb_true_iff in Hc.
  cbn [append JsString.replace_spaces]. now rewrite Hc, (IH Ha).
Qed.

Lemma replace_spaces_in_run (by_ : string) (ws rest : string) :
  blank ws = true ->
  JsString.replace_spaces by_ true (ws ++ rest)
  = JsString.replace_spaces by_ true rest.
Proof.
  induction ws as [| c ws IH]; intros H; [reflexivity |].
  cbn [blank] in H. apply andb_prop in H as [Hc Hws].
  cbn [append JsString.replace_spaces]. now rewrite Hc, (IH Hws).
Qed.

Lemma replace_spaces_run (by_ : string) (ws rest : string) :
  blank ws = true -> ws <> EmptyString ->
  JsString.replace_spaces by_ false (ws ++ rest)
  = (by_ ++ JsString.replace_spaces by_ true rest)%string.
Proof.
  destruct ws as [| c ws]; intros H Hfull; [contradiction |].
  cbn [blank] in H. apply andb_prop in H as [Hc Hws].
  cbn [append JsString.replace_spaces].
  rewrite Hc. now rewrite replace_spaces_in_run by assumption.
Qed.

(** X19. For a city written in ASCII characters, the name of the exported
    file is written in ASCII characters and has no white space in it; if
    the city has no white space either, the name is [places_], the city
    and [.csv]; and if the city is two parts without white space with a
    run of white space between them, the name is [places_], the first
    part, one underscore, the second part and [.csv]. *)
Theorem fileName_without_spaces (city : string) :
  ascii_only city = true ->
  ascii_only (fileName_of city) = true
  /\ spaceless (fileName_of city) = true
  /\ (spaceless city = true ->
      fileName_of city = ("places_" ++ city ++ ".csv")%string)
  /\ (forall a ws b,
        city = (a ++ ws ++ b)%string ->
        spaceless a = true -> blank ws = true -> ws <> EmptyString ->
        spaceless b = true ->
        fileName_of city = ("places_" ++ a ++ "_" ++ b ++ ".csv")%string).
Proof.
  intros Hascii. unfold fileName_of. split; [| split; [| split]].
  - rewrite !ascii_only_append, (replace_spaces_ascii_only _ Hascii).
    reflexivity.
  - rewrite !spaceless_append, replace_spaces_spaceless. reflexivity.
  - intros H. now rewrite (replace_spaces_none _ H).
  - intros a ws b -> Ha Hws Hfull Hb.
    rewrite replace_spaces_word by assumption.
    rewrite replace_spaces_run by assumption.
    rewrite (replace_spaces_none _ Hb). now rewrite <- !append_assoc.
Qed.

(* ------------------------------------------------------------------ *)
(** ** From the answer of the geocoder to the file *)

(** X20. In a run that returns, the points that were searched are the
    grid of the bounds of the first geocoding result, or of its viewport
    if it has no bounds, cut by the limit; the other results of the
    geocoder play no part. *)
Theorem run_searches_first_result (env : Env) (API_KEY : string) (fuel : nat)
    (city : string) (types : list string) (testLimit : option number)
    (t : Trace) :
  fst (run env API_KEY fuel city types testLimit t) = Returned tt ->
  exists json first others fullGrid ev,
    snd (run env API_KEY fuel city types testLimit t)
    = t ++ [ConsoleLog (LogGeocoding city); ConsoleLog (LogTypes types);
            GeocodeCall city API_KEY (inr json)] ++ ev
    /\ results json = first :: others
    /\ generateGrid fuel (southwest (bounds_of first)) (northeast (bounds_of first))
       = Some fullGrid
    /\ searched_points ev = select_grid testLimit fullGrid
    /\ geocode_calls ev = [].
Proof.
  intros Hret.
  destruct (run_returned_trace _ _ _ _ _ _ _ Hret)
    as (json & first & others & fullGrid & answered & Hres & Hgrid & Hans & Htrace).
  destruct (paced_calls_read API_KEY types answered)
    as (Hpoints & _ & _ & _ & Hgeo).
  exists json, first, others, fullGrid. eexists.
  split; [rewrite Htrace; cbn [app]; reflexivity |].
  split; [exact Hres |]. split; [exact Hgrid |].
  cbn [searched_points geocode_calls].
  rewrite searched_points_app, geocode_calls_app, Hpoints, Hgeo, Hans.
  cbv zeta. simpl. now rewrite app_nil_r.
Qed.

Lemma failed_writes_app :
  forall a b, failed_writes (a ++ b) = failed_writes a ++ failed_writes b.
Proof.
  intros a; induction a as [| e a IH]; intros b; simpl; [reflexivity |].
  destruct e; simpl; rewrite ?IH; try reflexivity.
  destruct failure; simpl; now rewrite ?IH.
Qed.

Lemma paced_calls_no_failed_write (key : string) (types : list string)
    (answered : list (LatLng * PlacesSearchResponse)) :
  failed_writes (paced_calls key types answered) = [].
Proof. induction answered as [| a answered IH]; simpl; auto. Qed.

(** X21. When [writeFileSync] fails with [e], the run ends with [e]
    thrown: every search had been answered, the failed call is the only
    call of [writeFileSync] and the last event, and the line that reports
    an exported file is not printed. *)
Theorem run_write_failure (env : Env) (API_KEY : string) (fuel : nat)
    (city : string) (types : list string) (testLimit : option number)
    (t : Trace) :
  exists ev,
    snd (run env API_KEY fuel city types testLimit t) = t ++ ev
    /\ forall e, In e (failed_writes ev) ->
         fst (run env API_KEY fuel city types testLimit t) = Thrown e
         /\ failed_searches ev = []
         /\ exists ev0 csv,
              ev = ev0 ++ [WriteFile (fileName_of city) csv (Some e)]
              /\ write_calls ev0 = [].
Proof.
  rewrite run_eq. cbv zeta. rewrite geocodeCity_eq. cbv zeta.
  set (l1 := ConsoleLog (LogGeocoding city)).
  set (l2 := ConsoleLog (LogTypes types)).
  set (g := GeocodeCall city API_KEY _).
  assert (forall A (o : outcome A),
            exists ev, snd (o, ((t ++ [l1]) ++ [l2]) ++ [g]) = t ++ ev
                       /\ failed_writes ev = []) as Hearly.
  { intros A o. exists [l1; l2; g]. simpl. now rewrite <- !app_assoc. }
  assert (forall o : outcome unit,
            exists ev, snd (o, ((t ++ [l1]) ++ [l2]) ++ [g]) = t ++ ev
              /\ forall e, In e (failed_writes ev) ->
                   fst (o, ((t ++ [l1]) ++ [l2]) ++ [g]) = Thrown e
                   /\ failed_searches ev = []
                   /\ exists ev0 csv,
                        ev = ev0 ++ [WriteFile (fileName_of city) csv (Some e)]
                        /\ write_calls ev0 = []) as Hstop.
  { intros o. destruct (Hearly unit o) as (ev & Hev & Hnone).
    exists ev. split; [exact Hev |]. rewrite Hnone. intros e []. }
  clear Hearly.
  destruct (geocode_answer env _ city) as [e0 | json]; [apply Hstop |].
  destruct (results json) as [| first others]; [apply Hstop |].
  destruct (generateGrid fuel _ _) as [fullGrid |]; [| apply Hstop].
  clear Hstop.
  set (grid := select_grid testLimit fullGrid).
  set (l3 := ConsoleLog (if limit_given testLimit then _ else _)).
  pose proof (search_loop_paced env API_KEY types grid JsMap.empty
                ((((t ++ [l1]) ++ [l2]) ++ [g]) ++ [l3])) as Hloop.
  destruct (search_loop env API_KEY types grid JsMap.empty
              ((((t ++ [l1]) ++ [l2]) ++ [g]) ++ [l3])) as [[unique | e1 |] t3];
    cbn [fst snd] in Hloop; [| | contradiction].
  - destruct Hloop as (answered & _ & -> & _).
    destruct (paced_calls_read API_KEY types answered)
      as (_ & _ & Hfailed & Hwrites & _).
    pose proof (paced_calls_no_failed_write API_KEY types answered) as Hfw.
    set (l4 := ConsoleLog (LogFound _)).
    set (csv := toCsv env (JsMap.values unique)).
    destruct (write_failure env _ _ _) as [e |].
    + exists ([l1; l2; g; l3] ++ paced_calls API_KEY types answered
              ++ [l4; WriteFile (fileName_of city) csv (Some e)]).
      split; [cbn [snd]; rewrite <- !app_assoc; reflexivity |].
      rewrite !failed_writes_app, !failed_searches_app, Hfw, Hfailed.
      simpl. intros e' [<- | []]. repeat split.
      exists ([l1; l2; g; l3] ++ paced_calls API_KEY types answered ++ [l4]), csv.
      split; [rewrite <- !app_assoc; reflexivity |].
      rewrite !write_calls_app, Hwrites. reflexivity.
    + exists ([l1; l2; g; l3] ++ paced_calls API_KEY types answered
              ++ [l4; WriteFile (fileName_of city) csv None;
                  ConsoleLog (LogExported (fileName_of city))]).
      split; [cbn [snd]; rewrite <- !app_assoc; reflexivity |].
      rewrite !failed_writes_app, Hfw. simpl. intros e' [].
  - destruct Hloop as (answered & p & rest & _ & ->).
    pose proof (paced_calls_no_failed_write API_KEY types answered) as Hfw.
    exists ([l1; l2; g; l3] ++ paced_calls API_KEY types answered
            ++ [PlacesCall p SEARCH_RADIUS types API_KEY (inl e1)]).
    split; [cbn [snd]; rewrite <- !app_assoc; reflexivity |].
    rewrite !failed_writes_app, Hfw. simpl. intros e' [].
Qed.

(* ------------------------------------------------------------------ *)
(** ** The further properties at work in the small world *)

Lemma grid_points_in_box_witness :
  Forall (in_box 10 20 (1005 # 100) (2005 # 100)) Sample.grid.
Proof.
  apply (@grid_points_in_box (inject_Z 3 / inject_Z 111)
           10 20 (1005 # 100) (2005 # 100) 5 Sample.grid);
    [reflexivity | vm_compute; reflexivity].
Defined.

Lemma grid64_covers_box_witness :
  exists la lo,
    In (Binary64.mkLatLng la lo)
       (Binary64.raster
          (Binary64.iterates 37 (Binary64.of_Z 20)
             (Binary64.kmToDeg Binary64.STEP_KM))
          [Binary64.of_Z 0])
    /\ Binary64.leb la (Binary64.of_Z 21) = true
    /\ Binary64.leb (Binary64.add la (Binary64.kmToDeg Binary64.STEP_KM))
                    (Binary64.of_Z 21) = false
    /\ Binary64.leb lo (Binary64.of_Z 0) = true
    /\ Binary64.leb (Binary64.add lo (Binary64.kmToDeg Binary64.STEP_KM))
                    (Binary64.of_Z 0) = false.
Proof.
  apply (@grid64_covers_box (Binary64.kmToDeg Binary64.STEP_KM)
           (Binary64.corner 20 0) (Binary64.corner 21 0) 40).
  - vm_compute. reflexivity.
  - vm_compute. reflexivity.
  - vm_compute. reflexivity.
  - vm_compute. reflexivity.
  - vm_compute. reflexivity.
Defined.

Lemma grid64_points_distinct_witness :
  NoDup (Binary64.raster
           (Binary64.iterates 37 (Binary64.of_Z 20)
              (Binary64.kmToDeg Binary64.STEP_KM))
           (Binary64.iterates 38 (Binary64.of_Z 0)
              (Binary64.kmToDeg Binary64.STEP_KM)))
  /\ (Binary64.raster
        (Binary64.iterates 37 (Binary64.of_Z 20)
           (Binary64.kmToDeg Binary64.STEP_KM))
        (Binary64.iterates 38 (Binary64.of_Z 0)
           (Binary64.kmToDeg Binary64.STEP_KM)) = []
      \/ exists R C,
           Binary64.makes_rounds R (Binary64.of_Z 20) (Binary64.of_Z 21)
             (Binary64.kmToDeg Binary64.STEP_KM) = true
           /\ Binary64.makes_rounds C (Binary64.of_Z 0) (Binary64.of_Z 1)
                (Binary64.kmToDeg Binary64.STEP_KM) = true
           /\ List.length
                (Binary64.raster
                   (Binary64.iterates 37 (Binary64.of_Z 20)
                      (Binary64.kmToDeg Binary64.STEP_KM))
                   (Binary64.iterates 38 (Binary64.of_Z 0)
                      (Binary64.kmToDeg Binary64.STEP_KM))) = (R * C)%nat).
Proof.
  apply (@grid64_points_distinct (Binary64.kmToDeg Binary64.STEP_KM)
           (Binary64.corner 20 0) (Binary64.corner 21 1) 80).
  vm_compute. reflexivity.
Defined.


Lemma merge_keeps_records_witness :
  JsMap.get "A" (merge [("A"%string, Sample.place "A" 4)] [Sample.place "B" 1])
  = JsMap.get "A" [("A"%string, Sample.place "A" 4)].
Proof.
  apply (proj2 (proj2 (merge_keeps_records
                         [("A"%string, Sample.place "A" 4)]
                         [Sample.place "B" 1]))).
  simpl. intros [H | []]. discriminate H.
Defined.

Lemma escape_round_trip_witness : "x"%string = "x"%string.
Proof.
  apply (proj1 (proj2 (escape_round_trip Sample.calm))). reflexivity.
Defined.

Lemma run_exports_merged_answers_witness :
  exists ev,
    snd (run Sample.calm Sample.key 5 Sample.town Sample.kinds None []) = [] ++ ev
    /\ geocode_calls ev = [Sample.town]
    /\ failed_searches ev = []
    /\ write_calls ev
       = [(fileName_of Sample.town,
           toCsv Sample.calm
             (JsMap.values (fold_left merge (responses_in ev) JsMap.empty)))].
Proof.
  apply (@run_exports_merged_answers Sample.calm Sample.key 5 Sample.town
           Sample.kinds None []).
  vm_compute. reflexivity.
Defined.

Lemma main_exit_zero_witness : city_of Sample.calm Trouble.argv <> EmptyString.
Proof.
  destruct (@main_exit_zero Sample.calm (Some Sample.key) Trouble.argv 5)
    as (_ & Hcity & _).
  - vm_compute. reflexivity.
  - exact Hcity.
Defined.

Lemma run_without_bounds_witness :
  run Trouble.nowhere Sample.key 5 Sample.town Sample.kinds None []
  = (Thrown (Error "No geocode results"),
     [ConsoleLog (LogGeocoding Sample.town); ConsoleLog (LogTypes Sample.kinds);
      GeocodeCall Sample.town Sample.key (inr (mkGeocodeResponse []))]).
Proof.
  apply (proj2 (@run_without_bounds Trouble.nowhere Sample.key 5 Sample.town
                  Sample.kinds None [])); reflexivity.
Defined.

Lemma run_on_empty_grid_witness :
  run Sample.calm Sample.key 5 Sample.town Sample.kinds (Some (Fin (1 # 2))) []
  = (Returned tt,
     Sample.geocoded_trace
     ++ [ConsoleLog (LogTestMode 0 4); ConsoleLog (LogFound 0);
         WriteFile "places_Town.csv" (JsString.join JsString.comma header) None;
         ConsoleLog (LogExported "places_Town.csv")]).
Proof.
  apply (@run_on_empty_grid Sample.calm Sample.key 5 Sample.town Sample.kinds
           (Some (Fin (1 # 2))) [] (mkBounds Sample.sw Sample.ne)
           Sample.geocoded_trace Sample.grid).
  - vm_compute. reflexivity.
  - vm_compute. reflexivity.
  - reflexivity.
  - intros. reflexivity.
Defined.

Lemma select_grid_front_witness :
  select_grid (Some (Fin (5 # 2))) Sample.grid = firstn 2 Sample.grid.
Proof.
  apply (proj1 (proj2 (select_grid_front Sample.grid)) (5 # 2)). reflexivity.
Defined.

Lemma test_option_value_witness :
  parse_arg Sample.calm default_options "--test=3"
  = mkOptions (Some (of_Z 3)) ["restaurant"; "cafe"]%string [].
Proof.
  apply (proj1 (@test_option_value Sample.calm default_options "3" EmptyString
                  eq_refl)).
Defined.

Lemma types_option_entries_witness :
  "gym"%string <> EmptyString /\ JsString.trim "gym" = "gym"%string.
Proof.
  apply (@types_option_entries Sample.calm default_options
           "--types= gym , spa" "gym").
  - reflexivity.
  - vm_compute. left. reflexivity.
Defined.

Lemma fileName_without_spaces_witness :
  (ascii_only (fileName_of "Town") = true
   /\ spaceless (fileName_of "Town") = true
   /\ fileName_of "Town" = "places_Town.csv"%string)
  /\ fileName_of "New  York" = "places_New_York.csv"%string.
Proof.
  split.
  - destruct (@fileName_without_spaces "Town" eq_refl)
      as (Hascii & Hfree & Hname & _).
    split; [exact Hascii | split; [exact Hfree | apply Hname; reflexivity]].
  - destruct (@fileName_without_spaces "New  York" eq_refl)
      as (_ & _ & _ & Hparts).
    apply (Hparts "New" "  " "York")%string;
      [reflexivity | reflexivity | reflexivity | discriminate | reflexivity].
Defined.

Lemma run_searches_first_result_witness :
  exists json first others fullGrid ev,
    snd (run Sample.calm Sample.key 5 Sample.town Sample.kinds None [])
    = [] ++ [ConsoleLog (LogGeocoding Sample.town);
             ConsoleLog (LogTypes Sample.kinds);
             GeocodeCall Sample.town Sample.key (inr json)] ++ ev
    /\ results json = first :: others
    /\ generateGrid 5 (southwest (bounds_of first)) (northeast (bounds_of first))
       = Some fullGrid
    /\ searched_points ev = select_grid None fullGrid
    /\ geocode_calls ev = [].
Proof.
  apply (@run_searches_first_result Sample.calm Sample.key 5 Sample.town
           Sample.kinds None []).
  vm_compute. reflexivity.
Defined.

Lemma run_write_failure_witness :
  fst (run Trouble.readonly Sample.key 5 Sample.town Sample.kinds None [])
  = Thrown (Error "EACCES").
Proof.
  destruct (@run_write_failure Trouble.readonly Sample.key 5 Sample.town
              Sample.kinds None []) as (ev & Hev & Hfail).
  simpl app in Hev.
  destruct (Hfail (Error "EACCES")) as (Hthrown & _).
  - rewrite <- Hev. vm_compute. left. reflexivity.
  - exact Hthrown.
Defined.
